(** * MapBoard: the map composition and interaction engine

    A shallow embedding of [src/components/MapBoard.tsx].

    The React component keeps two state cells ([base], [visible]) and three
    refs ([mapRef], [popupRef], [containerRef]); its single effect creates a
    maplibre [Map], registers an asynchronous ["load"] handler on it and
    returns a cleanup that removes the map.  The rendering engine is not part
    of the repository: it is represented by a recording double (section
    "Rendering engine") that keeps, per [Map] object, the sources, the style
    layers in registration order, the cursor and the registered listeners,
    and that logs every call made on it. *)

From stdpp Require Import base list strings.
From Stdlib Require Import ZArith.

Open Scope string_scope.
Open Scope list_scope.

(** ** Static configuration (lines 14-20) *)

Inductive StyleKey := terrain | dark.

Inductive LayerKey := departments | communes | sections.

#[global] Instance StyleKey_eq_dec : EqDecision StyleKey.
Proof. solve_decision. Defined.

#[global] Instance LayerKey_eq_dec : EqDecision LayerKey.
Proof. solve_decision. Defined.

Definition STYLES (k : StyleKey) : string :=
  match k with
  | terrain => "/styles/opentopo.json"
  | dark => "/styles/carto-dark.json"
  end.

(** A [LayerKey] is a string at run time. *)
Definition key_name (k : LayerKey) : string :=
  match k with
  | departments => "departments"
  | communes => "communes"
  | sections => "sections"
  end.

Definition all_keys : list LayerKey := [departments; communes; sections].

(** ** JavaScript values used by the component *)

(** The [visible] state is a plain object with boolean properties.  Property
    order is insertion order ([Object.keys] observes it), so the object is an
    association list. *)
Definition JsObj := list (string * bool).

Fixpoint obj_get (o : JsObj) (k : string) : option bool :=
  match o with
  | [] => None
  | (k', v) :: o' => if String.eqb k' k then Some v else obj_get o' k
  end.

(** [{ ...o, [k]: v }]: an existing property keeps its position, a new one is
    appended. *)
Fixpoint obj_set (o : JsObj) (k : string) (v : bool) : JsObj :=
  match o with
  | [] => [(k, v)]
  | (k', v') :: o' =>
      if String.eqb k' k then (k', v) :: o' else (k', v') :: obj_set o' k v
  end.

Definition obj_keys (o : JsObj) : list string := o.*1.

(** [!x] and the truthiness of [x] for [x] a boolean or [undefined]. *)
Definition js_not (x : option bool) : bool :=
  match x with Some b => negb b | None => true end.

Definition js_truthy (x : option bool) : bool :=
  match x with Some b => b | None => false end.

Definition mem (s : string) (l : list string) : bool :=
  existsb (String.eqb s) l.

(** ** Rendering engine (external collaborator) *)

(** A feature collection, reduced to the [name] property of its features. *)
Definition GeoJSON := list (option string).

Definition Point := (Z * Z)%type.
Definition LngLat := (Z * Z)%type.

Record SurfaceLayer := {
  l_id : string;
  l_type : string;
  l_source : string;
  l_paint : list (string * string);
  l_visibility : string
}.

(** A rendered feature as the program reads it: [f.layer.id] and
    [f.properties?.name]. *)
Record Feature := {
  f_layer : string;
  f_name : option string
}.

Record MapObj := {
  m_style : string;
  m_removed : bool;
  m_sources : list (string * GeoJSON);
  m_layers : list SurfaceLayer;      (* registration order: later paints on top *)
  m_cursor : string;                 (* getCanvas().style.cursor *)
  m_on : list string                 (* events that have a listener *)
}.

Record Popup := {
  p_map : option nat;
  p_lnglat : option LngLat;
  p_html : string
}.

(** Every call the component makes on the outside world, in the order made. *)
Inductive Call :=
| CNewMap (h : nat) (style : string)
| CAddControl (h : nat) (control : string) (position : option string)
| COn (h : nat) (event : string)
| CAddSource (h : nat) (name : string)
| CAddLayer (h : nat) (id : string)
| CSetLayoutProperty (h : nat) (id prop value : string)
| CGetLayer (h : nat) (id : string)
| CQueryRenderedFeatures (h : nat) (pt : Point) (layers : list string)
| CSetCursor (h : nat) (cursor : string)
| CRemove (h : nat)
| CFetch (url : string)
| CNewPopup (p : nat)
| CPopupRemove (p : nat)
| CPopupSetLngLat (p : nat) (at_ : LngLat)
| CPopupSetHTML (p : nat) (html : string)
| CPopupAddTo (p : nat) (h : nat).

(** The [Map] object a call is made on, if any. *)
Definition call_map (c : Call) : option nat :=
  match c with
  | CNewMap h _ | CAddControl h _ _ | COn h _ | CAddSource h _ | CAddLayer h _
  | CSetLayoutProperty h _ _ _ | CGetLayer h _ | CQueryRenderedFeatures h _ _
  | CSetCursor h _ | CRemove h | CPopupAddTo _ h => Some h
  | CFetch _ | CNewPopup _ | CPopupRemove _ | CPopupSetLngLat _ _
  | CPopupSetHTML _ _ => None
  end.

Definition is_set_layout (c : Call) : bool :=
  match c with CSetLayoutProperty _ _ _ _ => true | _ => false end.

Definition is_popup_write (c : Call) : bool :=
  match c with
  | CPopupSetLngLat _ _ | CPopupSetHTML _ _ | CPopupAddTo _ _ => true
  | _ => false
  end.

(** ** The component instance *)

(** Progress of the asynchronous ["load"] handler of one [Map]: it suspends
    at each of its three [await]s. *)
Inductive LoadState :=
| NotFired
| AwaitDeps
| AwaitComs (deps : GeoJSON)
| AwaitSecs (deps coms : GeoJSON)
| Composed
| Rejected.

(** One run of the effect body: the [Map] it created, the [visible] object
    its closures captured, and the progress of its ["load"] handler. *)
Record EffectRun := {
  r_map : MapObj;
  r_visible : JsObj;
  r_load : LoadState
}.

Inductive JsError :=
| TypeError (what : string)
| FetchRejected (url : string).

Record World := {
  base : StyleKey;                   (* useState *)
  visible : JsObj;                   (* useState *)
  mapRef : option nat;               (* useRef: handle of a Map *)
  popupRef : option nat;             (* useRef: handle of a Popup *)
  containerRef : bool;               (* useRef: is the <div> attached *)
  cleanup : option nat;              (* Map captured by the last cleanup *)
  runs : list EffectRun;             (* the Map objects, by handle *)
  popups : list Popup;               (* the Popup objects, by handle *)
  calls : list Call;
  uncaught : list JsError
}.

Definition set_base (v : StyleKey) (w : World) : World :=
  {| base := v; visible := visible w; mapRef := mapRef w;
     popupRef := popupRef w; containerRef := containerRef w;
     cleanup := cleanup w; runs := runs w; popups := popups w;
     calls := calls w; uncaught := uncaught w |}.

Definition set_visible (v : JsObj) (w : World) : World :=
  {| base := base w; visible := v; mapRef := mapRef w;
     popupRef := popupRef w; containerRef := containerRef w;
     cleanup := cleanup w; runs := runs w; popups := popups w;
     calls := calls w; uncaught := uncaught w |}.

Definition set_mapRef (v : option nat) (w : World) : World :=
  {| base := base w; visible := visible w; mapRef := v;
     popupRef := popupRef w; containerRef := containerRef w;
     cleanup := cleanup w; runs := runs w; popups := popups w;
     calls := calls w; uncaught := uncaught w |}.

Definition set_popupRef (v : option nat) (w : World) : World :=
  {| base := base w; visible := visible w; mapRef := mapRef w;
     popupRef := v; containerRef := containerRef w;
     cleanup := cleanup w; runs := runs w; popups := popups w;
     calls := calls w; uncaught := uncaught w |}.

Definition set_cleanup (v : option nat) (w : World) : World :=
  {| base := base w; visible := visible w; mapRef := mapRef w;
     popupRef := popupRef w; containerRef := containerRef w;
     cleanup := v; runs := runs w; popups := popups w;
     calls := calls w; uncaught := uncaught w |}.

Definition set_runs (v : list EffectRun) (w : World) : World :=
  {| base := base w; visible := visible w; mapRef := mapRef w;
     popupRef := popupRef w; containerRef := containerRef w;
     cleanup := cleanup w; runs := v; popups := popups w;
     calls := calls w; uncaught := uncaught w |}.

Definition set_popups (v : list Popup) (w : World) : World :=
  {| base := base w; visible := visible w; mapRef := mapRef w;
     popupRef := popupRef w; containerRef := containerRef w;
     cleanup := cleanup w; runs := runs w; popups := v;
     calls := calls w; uncaught := uncaught w |}.

Definition set_calls (v : list Call) (w : World) : World :=
  {| base := base w; visible := visible w; mapRef := mapRef w;
     popupRef := popupRef w; containerRef := containerRef w;
     cleanup := cleanup w; runs := runs w; popups := popups w;
     calls := v; uncaught := uncaught w |}.

Definition set_uncaught (v : list JsError) (w : World) : World :=
  {| base := base w; visible := visible w; mapRef := mapRef w;
     popupRef := popupRef w; containerRef := containerRef w;
     cleanup := cleanup w; runs := runs w; popups := popups w;
     calls := calls w; uncaught := v |}.

(** ** Statements: state plus exceptions *)

Inductive Res (A : Type) :=
| Ret (a : A)
| Throw (e : JsError).
Arguments Ret {A} a.
Arguments Throw {A} e.

Definition M (A : Type) : Type := World -> Res A * World.

Definition ret {A} (a : A) : M A := fun w => (Ret a, w).

Definition throw {A} (e : JsError) : M A := fun w => (Throw e, w).

Definition bind {A B} (c : M A) (k : A -> M B) : M B :=
  fun w =>
    match c w with
    | (Ret a, w') => k a w'
    | (Throw e, w') => (Throw e, w')
    end.

Notation "'do' x <- c ; k" := (bind c (fun x => k))
  (at level 10, x name, c at level 100, k at level 200).
Notation "'call' c ; k" := (bind c (fun _ => k))
  (at level 10, c at level 100, k at level 200).

Definition gets {A} (f : World -> A) : M A := fun w => (Ret (f w), w).

Definition modify (f : World -> World) : M unit := fun w => (Ret tt, f w).

(** [xs.forEach(f)] *)
Fixpoint forEach {A} (xs : list A) (f : A -> M unit) : M unit :=
  match xs with
  | [] => ret tt
  | x :: xs' => call f x; forEach xs' f
  end.

Definition log (c : Call) : M unit :=
  modify (fun w => set_calls (calls w ++ [c]) w).

(** The state a statement leaves and whether it completed normally. *)
Definition exec {A} (c : M A) (w : World) : World := (c w).2.

Definition completes {A} (c : M A) (w : World) : bool :=
  match (c w).1 with Ret _ => true | Throw _ => false end.

(** The calls a statement makes when started in [w]. *)
Definition issued {A} (c : M A) (w : World) : list Call :=
  drop (length (calls w)) (calls (exec c w)).

(** ** Engine operations

    Each operation updates the [Map] (or [Popup]) object it is called on and
    appends itself to [calls].  A removed [Map] is still an object: a call on
    it is recorded like any other, and nothing is assumed about whether the
    real engine would complain. *)

Definition with_removed (b : bool) (m : MapObj) : MapObj :=
  {| m_style := m_style m; m_removed := b; m_sources := m_sources m;
     m_layers := m_layers m; m_cursor := m_cursor m; m_on := m_on m |}.

Definition with_sources (v : list (string * GeoJSON)) (m : MapObj) : MapObj :=
  {| m_style := m_style m; m_removed := m_removed m; m_sources := v;
     m_layers := m_layers m; m_cursor := m_cursor m; m_on := m_on m |}.

Definition with_layers (v : list SurfaceLayer) (m : MapObj) : MapObj :=
  {| m_style := m_style m; m_removed := m_removed m; m_sources := m_sources m;
     m_layers := v; m_cursor := m_cursor m; m_on := m_on m |}.

Definition with_cursor (v : string) (m : MapObj) : MapObj :=
  {| m_style := m_style m; m_removed := m_removed m; m_sources := m_sources m;
     m_layers := m_layers m; m_cursor := v; m_on := m_on m |}.

Definition with_on (v : list string) (m : MapObj) : MapObj :=
  {| m_style := m_style m; m_removed := m_removed m; m_sources := m_sources m;
     m_layers := m_layers m; m_cursor := m_cursor m; m_on := v |}.

Definition with_map (f : MapObj -> MapObj) (r : EffectRun) : EffectRun :=
  {| r_map := f (r_map r); r_visible := r_visible r; r_load := r_load r |}.

Definition with_load (s : LoadState) (r : EffectRun) : EffectRun :=
  {| r_map := r_map r; r_visible := r_visible r; r_load := s |}.

Definition upd_run (h : nat) (f : EffectRun -> EffectRun) : M unit :=
  modify (fun w => set_runs (alter f h (runs w)) w).

Definition upd_map (h : nat) (f : MapObj -> MapObj) : M unit :=
  upd_run h (with_map f).

Definition upd_popup (p : nat) (f : Popup -> Popup) : M unit :=
  modify (fun w => set_popups (alter f p (popups w)) w).

Definition fresh_map (style : string) : MapObj :=
  {| m_style := style; m_removed := false; m_sources := []; m_layers := [];
     m_cursor := EmptyString; m_on := [] |}.

(** [new maplibregl.Map({ container, style, center, zoom })]; the closures
    the effect body creates afterwards see the [visible] of this render. *)
Definition newMap (style : string) : M nat :=
  do rs <- gets runs;
  do v <- gets visible;
  let h := length rs in
  call modify (set_runs (rs ++ [{| r_map := fresh_map style; r_visible := v;
                                   r_load := NotFired |}]));
  call log (CNewMap h style);
  ret h.

Definition addControl (h : nat) (control : string) (position : option string)
    : M unit :=
  log (CAddControl h control position).

Definition on (h : nat) (event : string) : M unit :=
  call upd_map h (fun m => with_on (m_on m ++ [event]) m);
  log (COn h event).

Definition addSource (h : nat) (name : string) (data : GeoJSON) : M unit :=
  call upd_map h (fun m => with_sources (m_sources m ++ [(name, data)]) m);
  log (CAddSource h name).

(** A layer added without a layout is visible. *)
Definition addLayer (h : nat) (id type source : string)
    (paint : list (string * string)) : M unit :=
  call upd_map h (fun m =>
    with_layers (m_layers m ++ [{| l_id := id; l_type := type;
                                   l_source := source; l_paint := paint;
                                   l_visibility := "visible" |}]) m);
  log (CAddLayer h id).

Definition set_visibility (id value : string) (l : SurfaceLayer) : SurfaceLayer :=
  if String.eqb (l_id l) id
  then {| l_id := l_id l; l_type := l_type l; l_source := l_source l;
          l_paint := l_paint l; l_visibility := value |}
  else l.

(** Only the ["visibility"] property is ever set by the component. *)
Definition setLayoutProperty (h : nat) (id prop value : string) : M unit :=
  call upd_map h (fun m => with_layers (set_visibility id value <$> m_layers m) m);
  log (CSetLayoutProperty h id prop value).

Definition find_layer (id : string) (m : MapObj) : option SurfaceLayer :=
  find (fun l => String.eqb (l_id l) id) (m_layers m).

Definition getLayer (h : nat) (id : string) : M (option SurfaceLayer) :=
  do rs <- gets runs;
  call log (CGetLayer h id);
  ret (r ← rs !! h; find_layer id (r_map r)).

Definition shown (l : SurfaceLayer) : bool :=
  negb (String.eqb (l_visibility l) "none").

(** The engine's answer to [queryRenderedFeatures(point, { layers })]: of the
    features [under] the pointer, those of a shown layer listed in [layers],
    topmost layer first (a layer registered later paints above the earlier
    ones). *)
Definition rendered (m : MapObj) (under : list Feature) (layers : list string)
    : list Feature :=
  flat_map (fun l =>
      if shown l && mem (l_id l) layers
      then List.filter (fun f => String.eqb (f_layer f) (l_id l)) under
      else [])
    (rev (m_layers m)).

Definition queryRenderedFeatures (h : nat) (pt : Point) (under : list Feature)
    (layers : list string) : M (list Feature) :=
  do rs <- gets runs;
  call log (CQueryRenderedFeatures h pt layers);
  ret (match rs !! h with
       | Some r => rendered (r_map r) under layers
       | None => []
       end).

Definition setCursor (h : nat) (cursor : string) : M unit :=
  call upd_map h (with_cursor cursor);
  log (CSetCursor h cursor).

Definition detach_from (h : nat) (p : Popup) : Popup :=
  if decide (p_map p = Some h)
  then {| p_map := None; p_lnglat := p_lnglat p; p_html := p_html p |}
  else p.

(** [map.remove()]; popups shown on the map go with it.  The object only
    records that it was removed: what the engine does to the style of a
    removed map is not represented, and its [m_sources] and [m_layers] keep
    what was registered on it. *)
Definition removeMap (h : nat) : M unit :=
  call upd_map h (with_removed true);
  call modify (fun w => set_popups (detach_from h <$> popups w) w);
  log (CRemove h).

Definition fetch (url : string) : M unit := log (CFetch url).

Definition newPopup : M nat :=
  do ps <- gets popups;
  let p := length ps in
  call modify (set_popups (ps ++ [{| p_map := None; p_lnglat := None;
                                     p_html := EmptyString |}]));
  call log (CNewPopup p);
  ret p.

Definition popupRemove (p : nat) : M unit :=
  call upd_popup p (fun x => {| p_map := None; p_lnglat := p_lnglat x;
                                p_html := p_html x |});
  log (CPopupRemove p).

Definition popupSetLngLat (p : nat) (ll : LngLat) : M unit :=
  call upd_popup p (fun x => {| p_map := p_map x; p_lnglat := Some ll;
                                p_html := p_html x |});
  log (CPopupSetLngLat p ll).

Definition popupSetHTML (p : nat) (html : string) : M unit :=
  call upd_popup p (fun x => {| p_map := p_map x; p_lnglat := p_lnglat x;
                                p_html := html |});
  log (CPopupSetHTML p html).

Definition popupAddTo (p h : nat) : M unit :=
  call upd_popup p (fun x => {| p_map := Some h; p_lnglat := p_lnglat x;
                                p_html := p_html x |});
  log (CPopupAddTo p h).

(** ** The component (lines 22-119) *)

Definition url_departments : string := "/data/haiti-departments.min.geojson".
Definition url_communes : string := "/data/haiti-communes.min.geojson".
Definition url_sections : string := "/data/haiti-sections.sample.geojson".

Definition vis (on_ : bool) : string := if on_ then "visible" else "none".

(** The id list of [apply] (lines 75-77). *)
Definition apply_ids (k : string) : list string :=
  if String.eqb k "departments" then ["departments-fill"; "departments-outline"]
  else if String.eqb k "communes" then ["communes-outline"]
  else ["sections-fill"; "sections-outline"].

(** The id list of [toggle] (lines 110-115). *)
Definition toggle_ids (key : string) : list string :=
  if String.eqb key "departments"
  then ["departments-fill"; "departments-outline"]
  else if String.eqb key "communes"
  then ["communes-outline"]
  else ["sections-fill"; "sections-outline"].

Definition apply (h : nat) (k : string) (on_ : bool) : M unit :=
  forEach (apply_ids k) (fun id => setLayoutProperty h id "visibility" (vis on_)).

Definition hoverTargets : list string := ["sections-fill"; "departments-fill"].

Definition dquote : string := String (Ascii.ascii_of_nat 34) EmptyString.

Definition popup_html (name : string) : string :=
  ("<div style=" ++ dquote
   ++ "font:600 12px Inter,system-ui;color:#111;background:#facc15;padding:4px 6px;border-radius:6px;"
   ++ dquote ++ ">" ++ name ++ "</div>")%string.

(** [(f.properties?.name as string) || "Unnamed"] *)
Definition display_name (f : Feature) : string :=
  match f_name f with
  | Some (String c s) => String c s
  | _ => "Unnamed"
  end.

Record MouseEvent := {
  e_point : Point;
  e_lngLat : LngLat;
  e_under : list Feature      (* what the engine finds rendered at [e_point] *)
}.

(** The ["mousemove"] listener (lines 86-99). *)
Definition on_mousemove (h : nat) (e : MouseEvent) : M unit :=
  do features <- queryRenderedFeatures h (e_point e) (e_under e) hoverTargets;
  call setCursor h (match features with [] => EmptyString | _ => "pointer" end);
  do pr <- gets popupRef;
  match features with
  | [] =>
      match pr with
      | Some p => popupRemove p
      | None => ret tt
      end
  | f :: _ =>
      let name := display_name f in
      match pr with
      | Some p =>
          call popupSetLngLat p (e_lngLat e);
          call popupSetHTML p (popup_html name);
          popupAddTo p h
      | None => throw (TypeError "popupRef.current is null")
      end
  end.

(** The ["mouseout"] listener (line 100). *)
Definition on_mouseout : M unit :=
  do pr <- gets popupRef;
  match pr with
  | Some p => popupRemove p
  | None => ret tt
  end.

(** The ["load"] handler after its third [await] (lines 52-100); [v] is the
    [visible] object the closure captured. *)
Definition compose (h : nat) (v : JsObj) (deps coms secs : GeoJSON) : M unit :=
  call addSource h "departments" deps;
  call addSource h "communes" coms;
  call addSource h "sections" secs;
  call addLayer h "departments-fill" "fill" "departments"
         [("fill-color", "#1f2937"); ("fill-opacity", "0.12")];
  call addLayer h "departments-outline" "line" "departments"
         [("line-color", "#f59e0b"); ("line-width", "1.4")];
  call addLayer h "communes-outline" "line" "communes"
         [("line-color", "#2563eb"); ("line-width", "0.9");
          ("line-dasharray", "[2,2]")];
  call addLayer h "sections-fill" "fill" "sections"
         [("fill-color", "#a78bfa"); ("fill-opacity", "0.14")];
  call addLayer h "sections-outline" "line" "sections"
         [("line-color", "#a78bfa"); ("line-width", "0.8")];
  call forEach (obj_keys v) (fun k => apply h k (js_truthy (obj_get v k)));
  do p <- newPopup;
  call modify (set_popupRef (Some p));
  call on h "mousemove";
  on h "mouseout".

(** The ["load"] handler up to its first [await] (lines 47-48). *)
Definition on_load (h : nat) : M unit :=
  call fetch url_departments;
  upd_run h (with_load AwaitDeps).

(** The ["load"] handler resumed by the settlement of its pending [fetch]
    ([None]: the fetch or the decoding of its body was rejected).  A
    rejection ends the handler: nothing in it catches. *)
Definition resume (h : nat) (r : EffectRun) (res : option GeoJSON) : M unit :=
  match r_load r, res with
  | AwaitDeps, Some deps =>
      call fetch url_communes;
      upd_run h (with_load (AwaitComs deps))
  | AwaitComs deps, Some coms =>
      call fetch url_sections;
      upd_run h (with_load (AwaitSecs deps coms))
  | AwaitSecs deps coms, Some secs =>
      call compose h (r_visible r) deps coms secs;
      upd_run h (with_load Composed)
  | AwaitDeps, None =>
      call upd_run h (with_load Rejected); throw (FetchRejected url_departments)
  | AwaitComs _, None =>
      call upd_run h (with_load Rejected); throw (FetchRejected url_communes)
  | AwaitSecs _ _, None =>
      call upd_run h (with_load Rejected); throw (FetchRejected url_sections)
  | _, _ => ret tt
  end.

(** The effect body (lines 31-102); it leaves its cleanup in [cleanup]. *)
Definition effect : M unit :=
  do c <- gets containerRef;
  if negb c then modify (set_cleanup None)
  else
    do b <- gets base;
    do h <- newMap (STYLES b);
    call modify (set_mapRef (Some h));
    call addControl h "NavigationControl" (Some "top-right");
    call addControl h "ScaleControl" None;
    call on h "load";
    modify (set_cleanup (Some h)).

(** The cleanup of the previous run (line 103). *)
Definition run_cleanup : M unit :=
  do c <- gets cleanup;
  match c with
  | Some h => removeMap h
  | None => ret tt
  end.

(** React re-runs the effect when an entry of [[base, visible]] (line 104) is
    a different value: the previous cleanup first, then the body. *)
Definition rerun_effect : M unit :=
  call run_cleanup; effect.

(** The body of the [forEach] of line 116:
    [map?.getLayer(id) && map.setLayoutProperty(id, "visibility", value)]. *)
Definition push_visibility (mr : option nat) (value id : string) : M unit :=
  match mr with
  | Some h =>
      do l <- getLayer h id;
      match l with
      | Some _ => setLayoutProperty h id "visibility" value
      | None => ret tt
      end
  | None => ret tt
  end.

(** The updater passed to [setVisible] (lines 107-118): returns [next]. *)
Definition toggle_updater (key : LayerKey) (prev : JsObj) : M JsObj :=
  let k := key_name key in
  let next := obj_set prev k (js_not (obj_get prev k)) in
  do mr <- gets mapRef;
  call forEach (toggle_ids k)
         (push_visibility mr (vis (js_truthy (obj_get next k))));
  ret next.

(** [toggle] (lines 106-119).  [next] is a new object, so the state changes
    and the component renders again. *)
Definition toggle (key : LayerKey) : M unit :=
  do prev <- gets visible;
  do next <- toggle_updater key prev;
  call modify (set_visible next);
  rerun_effect.

(** [setBase] (lines 135, 141): setting the current value is not a change. *)
Definition setBase (k : StyleKey) : M unit :=
  do b <- gets base;
  if decide (b = k) then ret tt
  else call modify (set_base k); rerun_effect.

(** ** Events *)

Inductive Event :=
| EvToggle (key : LayerKey)
| EvSetBase (k : StyleKey)
| EvLoad (h : nat)
| EvFetch (h : nat) (res : option GeoJSON)
| EvMouseMove (h : nat) (e : MouseEvent)
| EvMouseOut (h : nat).

(** The engine emits [event] on [Map] [h] only while the map is not removed,
    and only listeners hear it. *)
Definition listening (h : nat) (event : string) (w : World) : bool :=
  match runs w !! h with
  | Some r => negb (m_removed (r_map r)) && mem event (m_on (r_map r))
  | None => false
  end.

Definition load_of (h : nat) (w : World) : option LoadState :=
  r_load <$> runs w !! h.

(** ["load"] is emitted once per [Map]. *)
Definition not_fired (h : nat) (w : World) : bool :=
  match load_of h w with Some NotFired => true | _ => false end.

(** What the event loop runs for an event; an event nobody listens to runs
    nothing.  A settled fetch resumes its handler whether or not the map is
    still there. *)
Definition handler_of (ev : Event) (w : World) : M unit :=
  match ev with
  | EvToggle key => toggle key
  | EvSetBase k => setBase k
  | EvLoad h =>
      if listening h "load" w && not_fired h w
      then on_load h else ret tt
  | EvFetch h res =>
      match runs w !! h with
      | Some r => resume h r res
      | None => ret tt
      end
  | EvMouseMove h e =>
      if listening h "mousemove" w then on_mousemove h e else ret tt
  | EvMouseOut h =>
      if listening h "mouseout" w then on_mouseout else ret tt
  end.

(** An exception that leaves a handler is reported, not handled. *)
Definition settle (c : M unit) (w : World) : World :=
  match c w with
  | (Ret _, w') => w'
  | (Throw e, w') => set_uncaught (uncaught w' ++ [e]) w'
  end.

Definition step (ev : Event) (w : World) : World :=
  settle (handler_of ev w) w.

Definition steps (evs : list Event) (w : World) : World :=
  foldl (fun w ev => step ev w) w evs.

Definition init : World :=
  {| base := terrain;
     visible := [("departments", true); ("communes", false); ("sections", true)];
     mapRef := None; popupRef := None; containerRef := true; cleanup := None;
     runs := []; popups := []; calls := []; uncaught := [] |}.

(** The component after its first render and effect. *)
Definition mounted : World := settle effect init.

Inductive reachable : World -> Prop :=
| reach_mounted : reachable mounted
| reach_step w ev : reachable w -> reachable (step ev w).

(** Projections used in the statements. *)
Definition map_of (h : nat) (w : World) : option MapObj :=
  r_map <$> runs w !! h.

Definition layer_ids (m : MapObj) : list string := l_id <$> m_layers m.

Definition source_names (m : MapObj) : list string := (m_sources m).*1.

Definition catalog_order : list string :=
  ["departments-fill"; "departments-outline"; "communes-outline";
   "sections-fill"; "sections-outline"].

Definition stored (w : World) (k : LayerKey) : option bool :=
  obj_get (visible w) (key_name k).

(** ** A small program logic for statements

    [wp c w Q]: started in [w], statement [c] ends with a result and a state
    that satisfy [Q] (an exception is a result). *)
Definition wp {A} (c : M A) (w : World) (Q : Res A -> World -> Prop) : Prop :=
  Q (c w).1 (c w).2.

(** [c] maintains [I], whatever its result. *)
Definition pres {A} (I : World -> Prop) (c : M A) : Prop :=
  forall w, I w -> I (c w).2.

(** [c] never throws. *)
Definition nothrow {A} (c : M A) : Prop :=
  forall w, exists a, (c w).1 = Ret a.

(** [c] always returns [a]. *)
Definition returns {A} (c : M A) (a : A) : Prop :=
  forall w, (c w).1 = Ret a.

(** ** Invariants of the component *)

Definition key_names : list string := key_name <$> all_keys.

(** A [Map] before and after its ["load"] handler has run to the end. *)
Definition unloaded (m : MapObj) : Prop :=
  m_sources m = [] /\ m_layers m = [] /\ m_on m = ["load"].

Definition loaded (m : MapObj) : Prop :=
  source_names m = key_names /\ layer_ids m = catalog_order
  /\ m_on m = ["load"; "mousemove"; "mouseout"].

Definition run_ok (r : EffectRun) : Prop :=
  obj_keys (r_visible r) = key_names
  /\ match r_load r with
     | Composed => loaded (r_map r)
     | _ => unloaded (r_map r)
     end.

Record inv (w : World) : Prop := {
  inv_keys : obj_keys (visible w) = key_names;
  inv_runs : Forall run_ok (runs w);
  inv_popup : forall p, popupRef w = Some p -> p < length (popups w);
  inv_no_popup :
    popupRef w = None -> Forall (fun r => r_load r <> Composed) (runs w);
  inv_container : containerRef w = true;
  inv_current :
    exists h, length (runs w) = S h /\ mapRef w = Some h /\ cleanup w = Some h
}.

(** What [run_ok] reads of a [Map]. *)
Definition shape (m : MapObj) : list string * list string * list string :=
  (source_names m, layer_ids m, m_on m).

(** ** Scenarios *)

Definition sample : GeoJSON := [Some "Ouest"; None].

(** Mounted, loaded, and the three fetches resolved in turn. *)
Definition ready : World :=
  steps [EvLoad 0; EvFetch 0 (Some sample); EvFetch 0 (Some sample);
         EvFetch 0 (Some sample)] mounted.

(** The ["load"] handler is suspended at one of its [await]s. *)
Definition pending (s : LoadState) : bool :=
  match s with
  | AwaitDeps | AwaitComs _ | AwaitSecs _ _ => true
  | _ => false
  end.

Definition ouest : Feature :=
  {| f_layer := "departments-fill"; f_name := Some "Ouest" |}.

Definition turgeau : Feature :=
  {| f_layer := "sections-fill"; f_name := Some "Turgeau" |}.

(** The pointer over a section (and so over its department), and over the
    sea. *)
Definition over_both : MouseEvent :=
  {| e_point := (320, 240)%Z; e_lngLat := (-72, 18)%Z;
     e_under := [ouest; turgeau] |}.

Definition over_nothing : MouseEvent :=
  {| e_point := (5, 5)%Z; e_lngLat := (-75, 17)%Z; e_under := [] |}.

(** A [setLayoutProperty] call is guarded in [w] when it is made on the map
    [mapRef] designates and names a layer that map has. *)
Definition guarded (w : World) (c : Call) : Prop :=
  match c with
  | CSetLayoutProperty h id _ _ =>
      mapRef w = Some h
      /\ exists m, map_of h w = Some m /\ In id (layer_ids m)
  | _ => True
  end.

Definition own_call (h : nat) (c : Call) : Prop :=
  call_map c = Some h \/ call_map c = None.

(** Assertions used while reasoning about [toggle]. *)

(** The calls made since [w0] are guarded and no map has gained or lost a
    layer. *)
Definition pushing (w0 w : World) : Prop :=
  (exists cs, calls w = calls w0 ++ cs /\ Forall (guarded w0) cs)
  /\ forall j, (layer_ids ∘ r_map) <$> runs w !! j
               = (layer_ids ∘ r_map) <$> runs w0 !! j.

(** The calls made since [w0] are guarded. *)
Definition guarded_so_far (w0 w : World) : Prop :=
  exists cs, calls w = calls w0 ++ cs /\ Forall (guarded w0) cs.

(** [h] is the map of the last effect run. *)
Definition current (h : nat) (w : World) : Prop :=
  mapRef w = Some h /\ cleanup w = Some h /\ containerRef w = true
  /\ length (runs w) = S h.

(** The [addLayer] calls made on map [h], in order. *)
Definition added_on (h : nat) (c : Call) : option string :=
  match c with
  | CAddLayer h' id => if decide (h' = h) then Some id else None
  | _ => None
  end.

Definition registrations (h : nat) (w : World) : list string :=
  omap (added_on h) (calls w).

(** The layers a map holds are those registered on it, in that order. *)
Definition log_ok (w : World) : Prop :=
  forall h,
    registrations h w = default [] ((layer_ids ∘ r_map) <$> runs w !! h).

(** ** Further invariants *)

(** What [addLayer] is given for a layer (lines 58-71): everything but the
    visibility. *)
Definition descriptor (l : SurfaceLayer)
    : string * string * string * list (string * string) :=
  (l_id l, l_type l, l_source l, l_paint l).

Definition descriptors (m : MapObj)
    : list (string * string * string * list (string * string)) :=
  descriptor <$> m_layers m.

Definition catalog : list (string * string * string * list (string * string)) :=
  [("departments-fill", "fill", "departments",
    [("fill-color", "#1f2937"); ("fill-opacity", "0.12")]);
   ("departments-outline", "line", "departments",
    [("line-color", "#f59e0b"); ("line-width", "1.4")]);
   ("communes-outline", "line", "communes",
    [("line-color", "#2563eb"); ("line-width", "0.9");
     ("line-dasharray", "[2,2]")]);
   ("sections-fill", "fill", "sections",
    [("fill-color", "#a78bfa"); ("fill-opacity", "0.14")]);
   ("sections-outline", "line", "sections",
    [("line-color", "#a78bfa"); ("line-width", "0.8")])].

(** Map [m] shows the visibility object [v]: each layer of a LogicalLayer
    has the visibility of that key's flag. *)
Definition shows (v : JsObj) (m : MapObj) : Prop :=
  forall (k : LayerKey) l,
    In l (m_layers m) -> In (l_id l) (apply_ids (key_name k)) ->
    l_visibility l = vis (js_truthy (obj_get v (key_name k))).

(** A composed map has the five layers as written, whatever was toggled. *)
Definition settled (r : EffectRun) : Prop :=
  r_load r = Composed -> descriptors (r_map r) = catalog.

(** The run of the live map agrees with the state cells. *)
Definition live_ok (v : JsObj) (b : StyleKey) (r : EffectRun) : Prop :=
  m_style (r_map r) = STYLES b /\ r_visible r = v
  /\ (r_load r = Composed -> shows v (r_map r)).

(** [popupRef] designates the popup created last. *)
Definition newest_popup (w : World) : Prop :=
  match popupRef w with
  | Some p => length (popups w) = S p
  | None => popups w = []
  end.

(** What holds of the maps between the push of [toggle] and the re-run of
    the effect, and at all other times too. *)
Record mid (w : World) : Prop := {
  mid_removed : forall j r, runs w !! j = Some r ->
    (m_removed (r_map r) = false <-> S j = length (runs w));
  mid_settled : forall j r, runs w !! j = Some r -> settled r;
  mid_popup : newest_popup w
}.

(** The run created last agrees with the state cells. *)
Definition live (w : World) : Prop :=
  forall j r, runs w !! j = Some r -> S j = length (runs w) ->
    live_ok (visible w) (base w) r.

Record inv2 (w : World) : Prop := {
  inv2_mid : mid w;
  inv2_live : live w
}.

(** The layers a composition leaves on a map whose closure captured [v]:
    the five [addLayer] calls followed by [apply] for each key of [v]. *)
Definition layer_of (v : JsObj) (k : LayerKey)
    (d : string * string * string * list (string * string)) : SurfaceLayer :=
  {| l_id := d.1.1.1; l_type := d.1.1.2; l_source := d.1.2; l_paint := d.2;
     l_visibility := vis (js_truthy (obj_get v (key_name k))) |}.

(** The LogicalLayer each catalog entry belongs to (lines 57, 63, 67). *)
Definition catalog_keys : list LayerKey :=
  [departments; departments; communes; sections; sections].

Definition composed_layers (v : JsObj) : list SurfaceLayer :=
  zip_with (layer_of v) catalog_keys catalog.

(** The run a composition leaves. *)
Definition composed_run (r : EffectRun) (deps coms secs : GeoJSON) : EffectRun :=
  {| r_map :=
       {| m_style := m_style (r_map r); m_removed := m_removed (r_map r);
          m_sources := [("departments", deps); ("communes", coms);
                        ("sections", secs)];
          m_layers := composed_layers (r_visible r);
          m_cursor := m_cursor (r_map r);
          m_on := ["load"; "mousemove"; "mouseout"] |};
     r_visible := r_visible r;
     r_load := Composed |}.

(** Further scenarios. *)

(** The dark basemap chosen, then sections hidden: map 2 is live. *)
Definition restyled : World :=
  steps [EvSetBase dark; EvToggle sections] mounted.

(** Communes switched on before anything loaded, then map 1 composed. *)
Definition recomposed : World :=
  steps [EvToggle communes; EvLoad 1; EvFetch 1 (Some sample);
         EvFetch 1 (Some sample); EvFetch 1 (Some sample)] mounted.

(** Map 0 composed, the dark basemap chosen, and map 1 at its third
    [await]. *)
Definition composing : World :=
  steps [EvSetBase dark; EvLoad 1; EvFetch 1 (Some sample);
         EvFetch 1 (Some sample)] ready.

Definition communes_outline_visible : SurfaceLayer :=
  {| l_id := "communes-outline"; l_type := "line"; l_source := "communes";
     l_paint := [("line-color", "#2563eb"); ("line-width", "0.9");
                 ("line-dasharray", "[2,2]")];
     l_visibility := "visible" |}.

(** A layer after a push of [value] to the layers named in [ids]. *)
Definition pushed (ids : list string) (value : string) (l : SurfaceLayer)
    : SurfaceLayer :=
  if mem (l_id l) ids then set_visibility (l_id l) value l else l.

(** The rejection of one of the three fetches. *)
Definition fetch_error (e : JsError) : Prop :=
  exists url, e = FetchRejected url
    /\ In url [url_departments; url_communes; url_sections].

(** ** The popup on show *)

(** The composition of a [Map] ends with the registration of its
    ["mouseout"] listener (line 100). *)
Definition ended_on (c : Call) : option nat :=
  match c with
  | COn h event => if String.eqb event "mouseout" then Some h else None
  | _ => None
  end.

(** The [Map] whose composition ended last: the one whose ["load"] handler
    bound [popupRef] last (line 83). *)
Definition composed_last (w : World) : option nat :=
  last (omap ended_on (calls w)).

(** Popup [q] is shown on map [j]. *)
Definition shown_on (w : World) (q j : nat) : Prop :=
  exists pq, popups w !! q = Some pq /\ p_map pq = Some j.

(** A popup is shown only on a composed map, and on the map composed last
    only the popup [popupRef] designates. *)
Record popup_inv (w : World) : Prop := {
  pi_composed : forall q j, shown_on w q j -> load_of j w = Some Composed;
  pi_current : forall q j,
    shown_on w q j -> composed_last w = Some j -> popupRef w = Some q
}.

(** The basemap is changed while the first map is fetching; the second map
    is composed and the pointer rests on a section of it; then the fetches
    of the first map resolve. *)
Definition orphaned : World :=
  steps [EvLoad 0; EvSetBase dark; EvLoad 1;
         EvFetch 1 (Some sample); EvFetch 1 (Some sample);
         EvFetch 1 (Some sample); EvMouseMove 1 over_both;
         EvFetch 0 (Some sample); EvFetch 0 (Some sample);
         EvFetch 0 (Some sample)] mounted.

(** The pointer rests on a section of the first map. *)
Definition hovering : World := step (EvMouseMove 0 over_both) ready.

(** ** The buttons the component renders (lines 121-146) *)

Record Button := {
  b_label : string;
  b_className : string;
  b_onClick : Event
}.

(** [`px-2 py-1 rounded border transition ${active ? colour : idle}`] *)
Definition button_class (active : bool) (colour : string) : string :=
  ("px-2 py-1 rounded border transition "
   ++ (if active then colour else "bg-neutral-800 hover:bg-neutral-700"))%string.

Definition layer_label (k : LayerKey) : string :=
  match k with
  | departments => "Departments"
  | communes => "Communes"
  | sections => "Sections"
  end.

Definition layer_colour (k : LayerKey) : string :=
  match k with
  | departments => "bg-yellow-400 text-black"
  | communes => "bg-blue-400 text-black"
  | sections => "bg-green-400 text-black"
  end.

(** The chip of a layer (lines 126-128). *)
Definition layer_button (w : World) (k : LayerKey) : Button :=
  {| b_label := layer_label k;
     b_className :=
       button_class (js_truthy (obj_get (visible w) (key_name k)))
         (layer_colour k);
     b_onClick := EvToggle k |}.

Definition base_label (s : StyleKey) : string :=
  match s with terrain => "Terrain" | dark => "Dark" end.

Definition base_colour (s : StyleKey) : string :=
  match s with
  | terrain => "bg-emerald-400 text-black"
  | dark => "bg-yellow-300 text-black"
  end.

(** The button of a basemap (lines 134-145). *)
Definition base_button (w : World) (s : StyleKey) : Button :=
  {| b_label := base_label s;
     b_className := button_class (bool_decide (base w = s)) (base_colour s);
     b_onClick := EvSetBase s |}.

(** The five buttons, in document order. *)
Definition buttons (w : World) : list Button :=
  [layer_button w departments; layer_button w communes;
   layer_button w sections; base_button w terrain; base_button w dark].

(** * Proofs *)

(** ** Rules of the program logic *)

Lemma wp_ret {A} (a : A) w Q : Q (Ret a) w -> wp (ret a) w Q.
Proof. exact (fun H => H). Qed.

Lemma wp_throw {A} e w (Q : Res A -> World -> Prop) :
  Q (Throw e) w -> wp (throw e) w Q.
Proof. exact (fun H => H). Qed.

Lemma wp_gets {A} (f : World -> A) w Q : Q (Ret (f w)) w -> wp (gets f) w Q.
Proof. exact (fun H => H). Qed.

Lemma wp_modify f w Q : Q (Ret tt) (f w) -> wp (modify f) w Q.
Proof. exact (fun H => H). Qed.

Lemma wp_bind {A B} (c : M A) (k : A -> M B) w Q :
  wp c w (fun r w' =>
            match r with
            | Ret a => wp (k a) w' Q
            | Throw e => Q (Throw e) w'
            end) ->
  wp (bind c k) w Q.
Proof. unfold wp, bind. destruct (c w) as [[a|e] w']; auto. Qed.

Lemma wp_mono {A} (c : M A) w (Q Q' : Res A -> World -> Prop) :
  wp c w Q -> (forall r w', Q r w' -> Q' r w') -> wp c w Q'.
Proof. unfold wp. auto. Qed.

Lemma wp_settle (c : M unit) w (P : World -> Prop) :
  wp c w (fun r w' =>
            match r with
            | Ret _ => P w'
            | Throw e => P (set_uncaught (uncaught w' ++ [e]) w')
            end) ->
  P (settle c w).
Proof. unfold wp, settle. destruct (c w) as [[a|e] w']; auto. Qed.

Lemma wp_exec {A} (c : M A) w (P : World -> Prop) :
  wp c w (fun _ w' => P w') -> P (exec c w).
Proof. exact (fun H => H). Qed.

Lemma pres_ret {A} I (a : A) : pres I (ret a).
Proof. by intros w. Qed.

Lemma pres_throw {A} I e : pres I (@throw A e).
Proof. by intros w. Qed.

Lemma pres_gets {A} I (f : World -> A) : pres I (gets f).
Proof. by intros w. Qed.

Lemma pres_modify (I : World -> Prop) f :
  (forall w, I w -> I (f w)) -> pres I (modify f).
Proof. intros H w. apply H. Qed.

Lemma pres_bind {A B} I (c : M A) (k : A -> M B) :
  pres I c -> (forall a, pres I (k a)) -> pres I (bind c k).
Proof.
  intros Hc Hk w Hw. unfold bind. specialize (Hc w Hw).
  destruct (c w) as [[a|e] w']; simpl in *; [by apply Hk|done].
Qed.

Lemma pres_forEach {A} I (xs : list A) f :
  (forall x, pres I (f x)) -> pres I (forEach xs f).
Proof.
  intros Hf. induction xs as [|x xs IH]; simpl.
  - apply pres_ret.
  - apply pres_bind; auto.
Qed.

Lemma pres_and {A} (I J : World -> Prop) (c : M A) :
  pres I c -> pres J c -> pres (fun w => I w /\ J w) c.
Proof. intros HI HJ w [? ?]. split; [by apply HI|by apply HJ]. Qed.

Lemma pres_wp {A} (I : World -> Prop) (c : M A) :
  (forall w, I w -> wp c w (fun _ w' => I w')) -> pres I c.
Proof. exact (fun H => H). Qed.

Lemma nothrow_ret {A} (a : A) : nothrow (ret a).
Proof. intros w. by exists a. Qed.

Lemma nothrow_gets {A} (f : World -> A) : nothrow (gets f).
Proof. intros w. by exists (f w). Qed.

Lemma nothrow_modify f : nothrow (modify f).
Proof. intros w. by exists tt. Qed.

Lemma nothrow_bind {A B} (c : M A) (k : A -> M B) :
  nothrow c -> (forall a, nothrow (k a)) -> nothrow (bind c k).
Proof.
  intros Hc Hk w. unfold bind. destruct (Hc w) as [a Ha].
  destruct (c w) as [r w']; simpl in *; subst r. apply Hk.
Qed.

Lemma nothrow_forEach {A} (xs : list A) f :
  (forall x, nothrow (f x)) -> nothrow (forEach xs f).
Proof.
  intros Hf. induction xs as [|x xs IH]; simpl.
  - apply nothrow_ret.
  - apply nothrow_bind; auto.
Qed.

Lemma returns_bind_ret {A B} (c : M A) (b : B) :
  nothrow c -> returns (bind c (fun _ => ret b)) b.
Proof.
  intros Hc w. unfold bind. destruct (Hc w) as [a Ha].
  destruct (c w) as [r w']; simpl in *; by subst r.
Qed.

Lemma wp_pres {A} (c : M A) (I : World -> Prop) w Q :
  pres I c -> I w -> (forall r w', I w' -> Q r w') -> wp c w Q.
Proof. intros Hc Hw HQ. apply HQ, Hc, Hw. Qed.

Lemma wp_pres_returns {A} (c : M A) a (I : World -> Prop) w Q :
  pres I c -> returns c a -> I w -> (forall w', I w' -> Q (Ret a) w') ->
  wp c w Q.
Proof. intros Hc Hr Hw HQ. unfold wp. rewrite Hr. apply HQ, Hc, Hw. Qed.

(** Symbolic execution of straight-line statements. *)
Ltac wp_prim :=
  lazymatch goal with
  | |- wp (bind _ _) _ _ => apply wp_bind
  | |- wp (ret _) _ _ => apply wp_ret
  | |- wp (throw _) _ _ => apply wp_throw
  | |- wp (gets _) _ _ => apply wp_gets
  | |- wp (modify _) _ _ => apply wp_modify
  end; cbv beta iota.

Ltac wp_unfold :=
  unfold newMap, addControl, on, addSource, addLayer, setLayoutProperty,
    getLayer, queryRenderedFeatures, setCursor, removeMap, fetch, newPopup,
    popupRemove, popupSetLngLat, popupSetHTML, popupAddTo, upd_map, upd_popup,
    upd_run, log.

(** Keeps the state a record of expressions over the initial state. *)
Ltac world_norm :=
  unfold set_base, set_visible, set_mapRef, set_popupRef, set_cleanup,
    set_runs, set_popups, set_calls, set_uncaught;
  cbn [base visible mapRef popupRef containerRef cleanup runs popups calls
       uncaught].

Ltac wp_run := wp_unfold; repeat (wp_prim; world_norm).

(** Syntax-directed proof of [pres]: the structure of the statement first,
    then one obligation per state update. *)
Ltac pres_struct :=
  lazymatch goal with
  | |- pres _ (bind _ _) => apply pres_bind; [|intros ?]
  | |- pres _ (ret _) => apply pres_ret
  | |- pres _ (throw _) => apply pres_throw
  | |- pres _ (gets _) => apply pres_gets
  | |- pres _ (forEach _ _) => apply pres_forEach; intros ?
  | |- pres _ (match ?x with _ => _ end) => destruct x
  end.

Ltac pres_step :=
  lazymatch goal with
  | |- pres _ (modify _) => apply pres_modify; intros ? ?
  | |- _ => pres_struct
  end.

Ltac pres_go := wp_unfold; repeat pres_step.

Ltac nothrow_step :=
  lazymatch goal with
  | |- nothrow (bind _ _) => apply nothrow_bind; [|intros ?]
  | |- nothrow (ret _) => apply nothrow_ret
  | |- nothrow (gets _) => apply nothrow_gets
  | |- nothrow (forEach _ _) => apply nothrow_forEach; intros ?
  | |- nothrow (modify _) => apply nothrow_modify
  | |- nothrow (match ?x with _ => _ end) => destruct x
  end.

Ltac nothrow_go := wp_unfold; repeat nothrow_step.

Ltac unfold_handlers :=
  unfold toggle, toggle_updater, push_visibility, setBase, rerun_effect,
    run_cleanup, effect, on_load, on_mousemove, on_mouseout, compose, apply.

(** ** Lists and JavaScript objects *)

Lemma alter_alter {A} (f g : A -> A) i (l : list A) :
  alter f i (alter g i l) = alter (f ∘ g) i l.
Proof. revert i. induction l as [|x l IH]; intros [|i]; f_equal/=; auto. Qed.

Lemma alter_snoc {A} (f : A -> A) (l : list A) x :
  alter f (length l) (l ++ [x]) = l ++ [f x].
Proof. induction l as [|y l IH]; f_equal/=; auto. Qed.

Lemma Forall_alter_at {A} (P : A -> Prop) f (l : list A) i x :
  l !! i = Some x -> Forall P l -> P (f x) -> Forall P (alter f i l).
Proof.
  intros Hi Hl Hx. apply Forall_alter; [done|]. intros y Hy. by simplify_eq.
Qed.

Lemma issued_app {A} (c : M A) w cs :
  calls (exec c w) = calls w ++ cs -> issued c w = cs.
Proof. unfold issued. intros ->. by rewrite drop_app_length. Qed.

Lemma obj_keys_set o k v : obj_get o k <> None -> obj_keys (obj_set o k v) = obj_keys o.
Proof.
  unfold obj_keys. induction o as [|[k' v'] o IH]; simpl; [done|].
  destruct (String.eqb k' k) eqn:E; simpl; [done|].
  intros H. f_equal. by apply IH.
Qed.

Lemma obj_get_set o k v : obj_get o k <> None -> obj_get (obj_set o k v) k = Some v.
Proof.
  induction o as [|[k' v'] o IH]; simpl; [done|].
  destruct (String.eqb k' k) eqn:E; simpl; rewrite E; auto.
Qed.

Lemma obj_set_set o k v v' : obj_set (obj_set o k v) k v' = obj_set o k v'.
Proof.
  induction o as [|[k0 v0] o IH]; simpl.
  - by rewrite String.eqb_refl.
  - destruct (String.eqb k0 k) eqn:E; simpl; rewrite E; [done|]. by rewrite IH.
Qed.

Lemma obj_get_keys o k : obj_get o k <> None <-> In k (obj_keys o).
Proof.
  unfold obj_keys. induction o as [|[k0 v0] o IH]; simpl; [tauto|].
  destruct (String.eqb_spec k0 k); [|tauto]. split; [auto|done].
Qed.

Lemma key_name_in key : In (key_name key) key_names.
Proof. destruct key; simpl; auto. Qed.

Lemma toggle_next_keys key prev :
  obj_keys prev = key_names ->
  obj_keys (obj_set prev (key_name key) (js_not (obj_get prev (key_name key))))
  = key_names.
Proof.
  intros Hk. rewrite obj_keys_set; [done|].
  apply obj_get_keys. rewrite Hk. apply key_name_in.
Qed.

(** ** What the handlers leave alone *)

Lemma push_visibility_nothrow mr value id : nothrow (push_visibility mr value id).
Proof. unfold push_visibility. nothrow_go. Qed.

Lemma toggle_updater_returns key prev :
  returns (toggle_updater key prev)
    (obj_set prev (key_name key) (js_not (obj_get prev (key_name key)))).
Proof.
  intros w. unfold toggle_updater, bind at 1, gets.
  apply returns_bind_ret, nothrow_forEach, push_visibility_nothrow.
Qed.

Lemma rerun_effect_visible v : pres (fun w => visible w = v) rerun_effect.
Proof. unfold_handlers. pres_go; done. Qed.

Lemma toggle_visible key w :
  visible (step (EvToggle key) w)
  = obj_set (visible w) (key_name key)
      (js_not (obj_get (visible w) (key_name key))).
Proof.
  unfold step. apply wp_settle. unfold handler_of, toggle.
  do 3 wp_prim.
  eapply (wp_pres_returns _ _ (fun w' => True));
    [by intros ?|apply toggle_updater_returns|done|].
  intros w1 _. cbv beta iota. do 2 wp_prim.
  eapply wp_pres; [apply rerun_effect_visible|reflexivity|].
  by intros [] w2.
Qed.

Lemma other_events_visible ev w :
  (forall key, ev <> EvToggle key) -> visible (step ev w) = visible w.
Proof.
  intros Hev. unfold step. apply wp_settle.
  eapply (wp_pres _ (fun w' => visible w' = visible w)); [|done|by intros []].
  destruct ev as [key|k|h|h res|h e|h]; simpl.
  - by destruct (Hev key).
  - unfold_handlers. pres_go; done.
  - unfold_handlers. pres_go; done.
  - destruct (runs w !! h) as [r|]; [|apply pres_ret].
    unfold resume. destruct (r_load r), res; unfold_handlers; pres_go; done.
  - unfold_handlers. pres_go; done.
  - unfold_handlers. pres_go; done.
Qed.

Lemma settle_runs c w : runs (settle c w) = runs (exec c w).
Proof. unfold settle, exec. by destruct (c w) as [[]]. Qed.

(** ** The invariant is maintained *)

Lemma run_ok_shape f r :
  shape (f (r_map r)) = shape (r_map r) -> run_ok r -> run_ok (with_map f r).
Proof.
  unfold run_ok, loaded, unloaded, shape, source_names, layer_ids.
  intros [= Hs Hl Ho] [Hk Hr]; split; [done|]. simpl.
  rewrite Ho. unfold layer_ids in *.
  destruct (r_load r); rewrite ?Hs, ?Hl; try done.
  all: destruct Hr as (H1 & H2 & H3); rewrite H1, H2 in *.
  all: destruct (m_sources (f (r_map r))), (m_layers (f (r_map r))); done.
Qed.

Lemma run_ok_with_load s r :
  s <> Composed -> r_load r <> Composed -> run_ok r -> run_ok (with_load s r).
Proof.
  unfold run_ok. intros Hs Hr [Hk Hm]; split; [done|]. simpl.
  destruct s, (r_load r); done.
Qed.

Lemma inv_log c w : inv w -> inv (set_calls c w).
Proof. by intros []. Qed.

Lemma inv_uncaught e w : inv w -> inv (set_uncaught e w).
Proof. by intros []. Qed.

Lemma inv_base b w : inv w -> inv (set_base b w).
Proof. by intros []. Qed.

Lemma inv_visible v w : obj_keys v = key_names -> inv w -> inv (set_visible v w).
Proof. by intros Hv []. Qed.

Lemma inv_upd_map h f w :
  (forall m, shape (f m) = shape m) ->
  inv w -> inv (set_runs (alter (with_map f) h (runs w)) w).
Proof.
  intros Hf [? ? ? ? ? ?]; split; simpl; try done.
  - apply Forall_alter; [done|]. intros r _. by apply run_ok_shape.
  - intros Hp. apply Forall_alter; auto.
  - by rewrite length_alter.
Qed.

Lemma inv_popups ps w :
  length ps = length (popups w) -> inv w -> inv (set_popups ps w).
Proof. intros Hl [? ? ? ? ? ?]; split; simpl; try done. by rewrite Hl. Qed.

Lemma inv_set_load h s w r cs :
  runs w !! h = Some r -> s <> Composed -> r_load r <> Composed ->
  inv w ->
  inv {| base := base w; visible := visible w; mapRef := mapRef w;
         popupRef := popupRef w; containerRef := containerRef w;
         cleanup := cleanup w; runs := alter (with_load s) h (runs w);
         popups := popups w; calls := cs; uncaught := uncaught w |}.
Proof.
  intros Hh Hs Hr [Hk Ho Hp Hn Hc Hm]; split; simpl; try done.
  - eapply Forall_alter_at; [done..|].
    apply run_ok_with_load; [done..|]. by eapply Forall_lookup_1.
  - intros Hnone. eapply Forall_alter_at; [done|auto|done].
  - by rewrite length_alter.
Qed.

Lemma pres_inv_log c : pres inv (log c).
Proof. intros w. apply inv_log. Qed.

Lemma pres_inv_upd_map h f :
  (forall m, shape (f m) = shape m) -> pres inv (upd_map h f).
Proof. intros Hf w. by apply inv_upd_map. Qed.

Lemma pres_inv_upd_popup p f : pres inv (upd_popup p f).
Proof. intros w. apply inv_popups. by rewrite length_alter. Qed.

Lemma shape_set_visibility id value m :
  shape (with_layers (set_visibility id value <$> m_layers m) m) = shape m.
Proof.
  unfold shape, layer_ids. simpl. f_equal. f_equal.
  rewrite <- list_fmap_compose. apply list_fmap_ext. intros _ l _.
  unfold set_visibility. simpl. by destruct (String.eqb (l_id l) id).
Qed.

Lemma layer_ids_set_visibility id value m :
  layer_ids (with_layers (set_visibility id value <$> m_layers m) m)
  = layer_ids m.
Proof. by injection (shape_set_visibility id value m). Qed.

Lemma pres_inv_setLayoutProperty h id prop value :
  pres inv (setLayoutProperty h id prop value).
Proof.
  unfold setLayoutProperty. apply pres_bind; [|intros _; apply pres_inv_log].
  apply pres_inv_upd_map. apply shape_set_visibility.
Qed.

Lemma pres_inv_getLayer h id : pres inv (getLayer h id).
Proof.
  unfold getLayer. repeat pres_step. apply pres_inv_log.
Qed.

Lemma pres_inv_push_visibility mr value id :
  pres inv (push_visibility mr value id).
Proof.
  unfold push_visibility. destruct mr; [|apply pres_ret].
  apply pres_bind; [apply pres_inv_getLayer|].
  intros [l|]; [apply pres_inv_setLayoutProperty|apply pres_ret].
Qed.

Lemma pres_inv_toggle_updater key prev : pres inv (toggle_updater key prev).
Proof.
  unfold toggle_updater. repeat pres_step. apply pres_inv_push_visibility.
Qed.

Lemma pres_inv_removeMap h : pres inv (removeMap h).
Proof.
  unfold removeMap. repeat pres_step.
  - by apply pres_inv_upd_map.
  - apply inv_popups; [by rewrite length_fmap|done].
  - apply pres_inv_log.
Qed.

Lemma pres_inv_run_cleanup : pres inv run_cleanup.
Proof. unfold run_cleanup. repeat pres_step. apply pres_inv_removeMap. Qed.

Lemma effect_inv w :
  obj_keys (visible w) = key_names ->
  Forall run_ok (runs w) ->
  (forall p, popupRef w = Some p -> p < length (popups w)) ->
  (popupRef w = None -> Forall (fun r => r_load r <> Composed) (runs w)) ->
  containerRef w = true ->
  wp effect w (fun r w' => r = Ret tt /\ inv w').
Proof.
  intros Hk Hr Hp Hn Hc. unfold effect. wp_prim. wp_prim. rewrite Hc. simpl negb. cbv iota.
  wp_run. split; [done|]. split; simpl.
  - done.
  - rewrite alter_snoc. apply Forall_app. split; [done|].
    repeat constructor. done.
  - done.
  - intros Hnone. rewrite alter_snoc. apply Forall_app. split; [auto|].
    by repeat constructor.
  - done.
  - exists (length (runs w)). by rewrite length_alter, length_app, Nat.add_comm.
Qed.

Lemma pres_inv_effect : pres inv effect.
Proof.
  intros w [? ? ? ? ? ?]. by apply (effect_inv w).
Qed.

Lemma pres_inv_rerun_effect : pres inv rerun_effect.
Proof.
  unfold rerun_effect. apply pres_bind; [apply pres_inv_run_cleanup|].
  intros _. apply pres_inv_effect.
Qed.

Lemma mounted_inv : inv mounted.
Proof.
  unfold mounted. apply wp_settle.
  eapply wp_mono; [by apply effect_inv|]. by intros r w' [-> ?].
Qed.

Lemma toggle_inv key w : inv w -> inv (step (EvToggle key) w).
Proof.
  intros Hw. unfold step. apply wp_settle. unfold handler_of, toggle.
  do 3 wp_prim.
  eapply (wp_pres_returns _ _ inv);
    [apply pres_inv_toggle_updater|apply toggle_updater_returns|done|].
  intros w1 Hw1. cbv beta iota. do 2 wp_prim.
  eapply (wp_pres _ inv); [apply pres_inv_rerun_effect| |].
  - apply inv_visible; [|done]. apply toggle_next_keys, Hw.
  - intros [] w2 Hw2; [done|by apply inv_uncaught].
Qed.

Lemma pres_inv_setBase k : pres inv (setBase k).
Proof.
  unfold setBase. repeat pres_step.
  - by apply inv_base.
  - apply pres_inv_rerun_effect.
Qed.

Lemma pres_inv_popupRemove p : pres inv (popupRemove p).
Proof.
  unfold popupRemove. repeat pres_step;
    [apply pres_inv_upd_popup|apply pres_inv_log].
Qed.

Lemma pres_inv_on_mouseout : pres inv on_mouseout.
Proof. unfold on_mouseout. repeat pres_step. apply pres_inv_popupRemove. Qed.

Lemma pres_inv_on_mousemove h e : pres inv (on_mousemove h e).
Proof.
  unfold on_mousemove, queryRenderedFeatures, setCursor, popupSetLngLat,
    popupSetHTML, popupAddTo.
  repeat pres_step;
    first [apply pres_inv_log | apply pres_inv_upd_popup
          | apply pres_inv_popupRemove | by apply pres_inv_upd_map].
Qed.

Lemma on_load_inv h w :
  not_fired h w = true -> inv w ->
  wp (on_load h) w (fun r w' => r = Ret tt /\ inv w').
Proof.
  unfold not_fired, load_of. intros Hf Hw.
  destruct (runs w !! h) as [r|] eqn:Hh; [|done]. simpl in Hf.
  unfold on_load. wp_run. split; [done|].
  apply inv_set_load with r; try done. by destruct (r_load r).
Qed.

Lemma compose_inv h r deps coms secs w :
  runs w !! h = Some r -> r_load r = AwaitSecs deps coms -> inv w ->
  wp (call compose h (r_visible r) deps coms secs;
      upd_run h (with_load Composed)) w
     (fun res w' => res = Ret tt /\ inv w').
Proof.
  intros Hh Hl Hw.
  assert (Hr : run_ok r) by (eapply Forall_lookup_1; [apply Hw|done]).
  destruct Hr as [Hk Hu]. rewrite Hl in Hu.
  unfold compose, apply. rewrite Hk.
  cbn [key_names all_keys key_name fmap list_fmap forEach].
  change (apply_ids "departments")
    with ["departments-fill"; "departments-outline"].
  change (apply_ids "communes") with ["communes-outline"].
  change (apply_ids "sections") with ["sections-fill"; "sections-outline"].
  cbn [forEach].
  wp_run. split; [done|].
  destruct Hw as [Hkw Hrw Hp Hn Hc Hm]; split; simpl; try done.
  - rewrite !alter_alter. eapply Forall_alter_at; [done..|].
    destruct r as [[st rm so la cu li] v l]. unfold unloaded in Hu.
    simpl in *. destruct Hu as (-> & -> & ->). by split.
  - intros p [= <-]. rewrite length_app. simpl. lia.
  - by rewrite !length_alter.
Qed.

Lemma resume_inv h r res w :
  runs w !! h = Some r -> inv w ->
  wp (resume h r res) w (fun _ w' => inv w').
Proof.
  intros Hh Hw. unfold resume.
  destruct (r_load r) eqn:Hl, res as [data|]; try exact Hw.
  all: try (unfold fetch; wp_run; apply inv_set_load with r; (done || by rewrite Hl)).
  eapply wp_mono; [by apply compose_inv|]. by intros ? ? [_ ?].
Qed.

Lemma step_inv ev w : inv w -> inv (step ev w).
Proof.
  intros Hw. destruct ev as [key|k|h|h res|h e|h].
  - by apply toggle_inv.
  - unfold step. apply wp_settle.
    eapply wp_pres; [apply pres_inv_setBase|done|].
    intros [] w' Hw'; [done|by apply inv_uncaught].
  - unfold step. apply wp_settle. simpl.
    destruct (listening h "load" w); [|done]. simpl.
    destruct (not_fired h w) eqn:Hf; [|done].
    eapply wp_mono; [by apply on_load_inv|]. by intros ? ? [-> ?].
  - unfold step. apply wp_settle. simpl.
    destruct (runs w !! h) as [r|] eqn:Hh; [|done].
    eapply wp_mono; [by apply resume_inv|].
    intros [] w' Hw'; [done|by apply inv_uncaught].
  - unfold step. apply wp_settle. simpl.
    destruct (listening h "mousemove" w); [|done].
    eapply wp_pres; [apply pres_inv_on_mousemove|done|].
    intros [] w' Hw'; [done|by apply inv_uncaught].
  - unfold step. apply wp_settle. simpl.
    destruct (listening h "mouseout" w); [|done].
    eapply wp_pres; [apply pres_inv_on_mouseout|done|].
    intros [] w' Hw'; [done|by apply inv_uncaught].
Qed.

Lemma reachable_inv w : reachable w -> inv w.
Proof. induction 1; [apply mounted_inv|by apply step_inv]. Qed.

Lemma reachable_steps evs w : reachable w -> reachable (steps evs w).
Proof.
  revert w. induction evs as [|ev evs IH]; intros w Hw; simpl; [done|].
  apply IH. by constructor.
Qed.

Lemma ready_reachable : reachable ready.
Proof. unfold ready. apply reachable_steps, reach_mounted. Qed.

(** ** The call log and the layers agree *)

Lemma layer_ids_alter_restyle g j (l : list EffectRun) i :
  (forall m, layer_ids (g m) = layer_ids m) ->
  (layer_ids ∘ r_map) <$> alter (with_map g) j l !! i
  = (layer_ids ∘ r_map) <$> l !! i.
Proof.
  intros Hg. destruct (decide (j = i)) as [->|Hne].
  - rewrite list_lookup_alter_eq. destruct (l !! i); simpl; [|done].
    by rewrite Hg.
  - by rewrite list_lookup_alter_ne.
Qed.

Lemma log_ok_log c :
  (forall h, added_on h c = None) -> pres log_ok (log c).
Proof.
  intros Hc w Hw h. unfold registrations. simpl.
  rewrite omap_app. simpl. rewrite Hc, app_nil_r. apply Hw.
Qed.

Lemma log_ok_upd_map j f :
  (forall m, layer_ids (f m) = layer_ids m) -> pres log_ok (upd_map j f).
Proof.
  intros Hf w Hw h. unfold registrations. simpl.
  rewrite layer_ids_alter_restyle by done. apply Hw.
Qed.

Lemma log_ok_upd_load j s : pres log_ok (upd_run j (with_load s)).
Proof.
  intros w Hw h. unfold registrations. simpl.
  replace ((layer_ids ∘ r_map) <$> alter (with_load s) j (runs w) !! h)
    with ((layer_ids ∘ r_map) <$> runs w !! h); [apply Hw|].
  destruct (decide (j = h)) as [->|Hne].
  - rewrite list_lookup_alter_eq. by destruct (runs w !! h).
  - by rewrite list_lookup_alter_ne.
Qed.

Lemma log_ok_newMap style : pres log_ok (newMap style).
Proof.
  apply pres_wp. intros w Hw. unfold newMap. wp_run. intros h.
  specialize (Hw h). unfold registrations in *. simpl.
  rewrite omap_app. simpl. rewrite app_nil_r, Hw.
  destruct (runs w !! h) as [r|] eqn:Hr.
  - by rewrite (lookup_app_l_Some _ _ _ _ Hr).
  - apply lookup_ge_None in Hr. rewrite lookup_app_r by done.
    by destruct (h - length (runs w)) as [|[|n]].
Qed.

(** Registering a layer on a map that exists. *)
Lemma log_ok_addLayer j id type source paint :
  pres (fun w => log_ok w /\ j < length (runs w))
    (addLayer j id type source paint).
Proof.
  apply pres_wp. intros w [Hw Hj]. unfold addLayer. wp_run.
  split; [|by rewrite length_alter]. intros h.
  specialize (Hw h). unfold registrations in *. simpl.
  rewrite omap_app. simpl.
  destruct (decide (j = h)) as [->|Hne].
  - rewrite list_lookup_alter_eq, Hw.
    destruct (lookup_lt_is_Some_2 _ _ Hj) as [r ->]. simpl.
    unfold layer_ids. simpl. by rewrite fmap_app.
  - by rewrite list_lookup_alter_ne, app_nil_r.
Qed.

Ltac log_ok_go :=
  unfold addControl, on, addSource, setLayoutProperty, getLayer,
    queryRenderedFeatures, setCursor, removeMap, fetch, newPopup,
    popupRemove, popupSetLngLat, popupSetHTML, popupAddTo, upd_popup;
  repeat lazymatch goal with
    | |- pres _ (newMap _) => apply log_ok_newMap
    | |- pres _ (upd_run _ (with_load _)) => apply log_ok_upd_load
    | |- pres _ (log _) => apply log_ok_log; done
    | |- pres _ (upd_map _ _) =>
        apply log_ok_upd_map; intros ?;
        first [reflexivity | apply layer_ids_set_visibility]
    | |- pres _ (modify _) => apply pres_modify; intros ? H; exact H
    | |- _ => pres_struct
    end.

Lemma log_ok_compose j v deps coms secs :
  pres (fun w => log_ok w /\ j < length (runs w)) (compose j v deps coms secs).
Proof.
  unfold compose, apply. repeat pres_struct.
  all: lazymatch goal with
       | |- pres _ (addLayer _ _ _ _ _) => apply log_ok_addLayer
       | |- _ => apply pres_and;
                   [ log_ok_go
                   | pres_go; world_norm; rewrite ?length_alter; done ]
       end.
Qed.

Lemma log_ok_handler ev w : log_ok w -> log_ok (exec (handler_of ev w) w).
Proof.
  intros Hw. destruct ev as [key|k|h|h res|h e|h]; simpl.
  - revert w Hw. change (pres log_ok (toggle key)).
    unfold toggle, toggle_updater, push_visibility, rerun_effect,
      run_cleanup, effect. log_ok_go.
  - revert w Hw. change (pres log_ok (setBase k)).
    unfold setBase, rerun_effect, run_cleanup, effect. log_ok_go.
  - destruct (listening h "load" w && not_fired h w); [|done].
    revert w Hw. change (pres log_ok (on_load h)). unfold on_load. log_ok_go.
  - destruct (runs w !! h) as [r|] eqn:Hh; [|done].
    assert (Hlt : h < length (runs w)) by by eapply lookup_lt_Some.
    enough (Hp : pres (fun w => log_ok w /\ h < length (runs w))
                   (resume h r res)) by by apply Hp.
    unfold resume. destruct (r_load r), res as [data|]; try apply pres_ret.
    all: repeat pres_struct.
    all: lazymatch goal with
         | |- pres _ (compose _ _ _ _ _) => apply log_ok_compose
         | |- _ => apply pres_and;
                     [ log_ok_go
                     | pres_go; world_norm; rewrite ?length_alter; done ]
         end.
  - destruct (listening h "mousemove" w); [|done].
    revert w Hw. change (pres log_ok (on_mousemove h e)).
    unfold on_mousemove. log_ok_go.
  - destruct (listening h "mouseout" w); [|done].
    revert w Hw. change (pres log_ok on_mouseout).
    unfold on_mouseout. log_ok_go.
Qed.

Lemma settle_exec_log_ok c w : log_ok (exec c w) -> log_ok (settle c w).
Proof. unfold settle, exec. by destruct (c w) as [[]]. Qed.

Lemma reachable_log_ok w : reachable w -> log_ok w.
Proof.
  induction 1 as [|w ev Hw IH].
  - apply settle_exec_log_ok.
    assert (Hp : pres log_ok effect) by (unfold effect; log_ok_go).
    apply Hp. by intros [|h].
  - by apply settle_exec_log_ok, log_ok_handler.
Qed.

(** ** A rejected handler stays rejected *)

Lemma load_alter_with_map f j (l : list EffectRun) h :
  r_load <$> alter (with_map f) j l !! h = r_load <$> l !! h.
Proof.
  destruct (decide (j = h)) as [->|Hne].
  - rewrite list_lookup_alter_eq. by destruct (l !! h).
  - by rewrite list_lookup_alter_ne.
Qed.

Lemma load_alter_with_load_ne s j (l : list EffectRun) h :
  j <> h -> r_load <$> alter (with_load s) j l !! h = r_load <$> l !! h.
Proof. intros Hne. by rewrite list_lookup_alter_ne. Qed.

Lemma load_snoc (l : list EffectRun) x h s :
  r_load <$> l !! h = Some s -> r_load <$> (l ++ [x]) !! h = Some s.
Proof.
  destruct (l !! h) as [r|] eqn:E; [|done].
  by rewrite (lookup_app_l_Some _ _ _ _ E).
Qed.

Ltac load_frame :=
  unfold load_of in *; world_norm;
  rewrite ?load_alter_with_map; try done.

Lemma newMap_rejected h style :
  pres (fun w => load_of h w = Some Rejected) (newMap style).
Proof.
  apply pres_wp. intros w Hw. unfold newMap. wp_run.
  load_frame. by apply load_snoc.
Qed.

Lemma effect_rejected h : pres (fun w => load_of h w = Some Rejected) effect.
Proof.
  unfold effect. repeat pres_step; try apply newMap_rejected;
    wp_unfold; repeat pres_step; load_frame.
Qed.

Lemma toggle_rejected h key :
  pres (fun w => load_of h w = Some Rejected) (toggle key).
Proof.
  unfold toggle, toggle_updater, push_visibility, rerun_effect, run_cleanup.
  repeat pres_step; try apply effect_rejected;
    wp_unfold; repeat pres_step; load_frame.
Qed.

Lemma setBase_rejected h k :
  pres (fun w => load_of h w = Some Rejected) (setBase k).
Proof.
  unfold setBase, rerun_effect, run_cleanup.
  repeat pres_step; try apply effect_rejected;
    wp_unfold; repeat pres_step; load_frame.
Qed.

Lemma on_mousemove_rejected h j e :
  pres (fun w => load_of h w = Some Rejected) (on_mousemove j e).
Proof. unfold on_mousemove. wp_unfold. repeat pres_step; load_frame. Qed.

Lemma on_mouseout_rejected h :
  pres (fun w => load_of h w = Some Rejected) on_mouseout.
Proof. unfold on_mouseout. wp_unfold. repeat pres_step; load_frame. Qed.

Lemma compose_rejected h j v deps coms secs :
  pres (fun w => load_of h w = Some Rejected) (compose j v deps coms secs).
Proof.
  unfold compose, apply. wp_unfold. repeat pres_step; load_frame.
Qed.

Lemma rejected_stable ev w h :
  load_of h w = Some Rejected -> load_of h (step ev w) = Some Rejected.
Proof.
  intros Hw. unfold step. apply wp_settle.
  eapply (wp_pres _ (fun w' => load_of h w' = Some Rejected));
    [|done|by intros []].
  destruct ev as [key|k|j|j res|j e|j]; simpl.
  - apply toggle_rejected.
  - apply setBase_rejected.
  - destruct (listening j "load" w); [|apply pres_ret]. simpl.
    destruct (not_fired j w) eqn:Hf; [|apply pres_ret].
    assert (j <> h).
    { intros ->. unfold not_fired in Hf. by rewrite Hw in Hf. }
    unfold on_load. wp_unfold. repeat pres_step; load_frame.
    by rewrite load_alter_with_load_ne.
  - destruct (runs w !! j) as [r|] eqn:Hj; [|apply pres_ret].
    unfold resume.
    destruct (pending (r_load r)) eqn:Hp.
    + assert (j <> h).
      { intros ->. unfold load_of in Hw. rewrite Hj in Hw. simpl in Hw.
        injection Hw as Hw. by rewrite Hw in Hp. }
      destruct (r_load r), res; try apply pres_ret; try done.
      all: repeat pres_step; try apply compose_rejected.
      all: wp_unfold; repeat pres_step; load_frame.
      all: by rewrite load_alter_with_load_ne.
    + destruct (r_load r), res; try apply pres_ret; done.
  - destruct (listening j "mousemove" w); [|apply pres_ret].
    apply on_mousemove_rejected.
  - destruct (listening j "mouseout" w); [|apply pres_ret].
    apply on_mouseout_rejected.
Qed.

Lemma rejected_stable_steps evs w h :
  load_of h w = Some Rejected -> load_of h (steps evs w) = Some Rejected.
Proof.
  revert w. induction evs as [|ev evs IH]; intros w Hw; simpl; [done|].
  by apply IH, rejected_stable.
Qed.

Lemma failed_fetch_step w h r :
  runs w !! h = Some r -> pending (r_load r) = true ->
  load_of h (step (EvFetch h None) w) = Some Rejected
  /\ calls (step (EvFetch h None) w) = calls w.
Proof.
  intros Hh Hp. unfold step. apply wp_settle. simpl. rewrite Hh.
  unfold resume. destruct (r_load r); try done.
  all: wp_run; unfold load_of; simpl.
  all: by rewrite list_lookup_alter_eq, Hh.
Qed.

(** ** What a resumed handler touches *)

Lemma resume_effects h r res w :
  runs w !! h = Some r -> inv w ->
  wp (resume h r res) w (fun _ w' =>
    exists cs, calls w' = calls w ++ cs
      /\ Forall (own_call h) cs
      /\ (forall h', h' <> h -> runs w' !! h' = runs w !! h')
      /\ (forall deps coms secs,
            r_load r = AwaitSecs deps coms -> res = Some secs ->
            (CAddSource h <$> key_names) ++ (CAddLayer h <$> catalog_order)
            = take 8 cs)).
Proof.
  intros Hh Hw.
  assert (Hr : run_ok r) by (eapply Forall_lookup_1; [apply Hw|done]).
  destruct Hr as [Hk _].
  unfold resume, compose, apply, fetch. rewrite Hk.
  cbn [key_names all_keys key_name fmap list_fmap forEach].
  change (apply_ids "departments")
    with ["departments-fill"; "departments-outline"].
  change (apply_ids "communes") with ["communes-outline"].
  change (apply_ids "sections") with ["sections-fill"; "sections-outline"].
  cbn [forEach].
  destruct (r_load r), res as [data|].
  all: wp_run; rewrite <- ?app_assoc; cbn [app].
  all: first [ exists []; split; [by rewrite app_nil_r|]
             | eexists; split; [reflexivity|] ].
  all: split;
    [repeat (apply Forall_cons_2; [unfold own_call; simpl; auto|]);
     apply Forall_nil_2|].
  all: split; [intros h' Hne; by rewrite ?list_lookup_alter_ne|].
  all: intros deps' coms' secs' Hl Hres; by simplify_eq.
Qed.

(** ** Hover *)

Lemma hover_listener w h :
  inv w -> listening h "mousemove" w = true ->
  exists r p, runs w !! h = Some r /\ loaded (r_map r)
    /\ popupRef w = Some p /\ p < length (popups w).
Proof.
  intros Hw. unfold listening.
  destruct (runs w !! h) as [r|] eqn:Hh; [|done].
  intros [_ Hon]%andb_prop.
  destruct (Forall_lookup_1 _ _ _ _ (inv_runs w Hw) Hh) as [_ Hm].
  destruct (r_load r) eqn:Hl;
    try (destruct Hm as (_ & _ & Hm); by rewrite Hm in Hon).
  destruct (popupRef w) as [p|] eqn:Hp.
  - exists r, p. repeat split; try done; try apply Hm. by apply (inv_popup w Hw).
  - pose proof (inv_no_popup w Hw Hp) as Hn.
    by destruct (Forall_lookup_1 _ _ _ _ Hn Hh).
Qed.



(** The same listener when the query finds nothing. *)
Lemma on_mousemove_nothing w h r e p :
  listening h "mousemove" w = true ->
  runs w !! h = Some r -> popupRef w = Some p -> p < length (popups w) ->
  rendered (r_map r) (e_under e) hoverTargets = [] ->
  let w' := step (EvMouseMove h e) w in
  m_cursor <$> map_of h w' = Some EmptyString
  /\ issued (handler_of (EvMouseMove h e) w) w
     = [CQueryRenderedFeatures h (e_point e) hoverTargets;
        CSetCursor h EmptyString; CPopupRemove p]
  /\ (exists pp, popups w' !! p = Some pp /\ p_map pp = None)
  /\ (forall q, p_html <$> popups w' !! q = p_html <$> popups w !! q)
  /\ (forall q, p_lnglat <$> popups w' !! q = p_lnglat <$> popups w !! q).
Proof.
  intros Hl Hh Hp Hlt Hf.
  destruct (lookup_lt_is_Some_2 (popups w) p Hlt) as [pp0 Hpp].
  split; [|split].
  - unfold step. apply wp_settle. simpl. rewrite Hl.
    unfold on_mousemove. wp_run. rewrite Hh, Hf, Hp. wp_run.
    unfold map_of. simpl. by rewrite list_lookup_alter_eq, Hh.
  - simpl. rewrite Hl. apply issued_app. apply wp_exec.
    unfold on_mousemove. wp_run. rewrite Hh, Hf, Hp. wp_run.
    by rewrite <- !app_assoc.
  - unfold step. apply wp_settle. simpl. rewrite Hl.
    unfold on_mousemove. wp_run. rewrite Hh, Hf, Hp. wp_run.
    split; [|split].
    + rewrite list_lookup_alter_eq, Hpp. by eexists.
    + intros q. destruct (decide (p = q)) as [->|Hne].
      * rewrite list_lookup_alter_eq. by destruct (popups w !! q).
      * by rewrite list_lookup_alter_ne.
    + intros q. destruct (decide (p = q)) as [->|Hne].
      * rewrite list_lookup_alter_eq. by destruct (popups w !! q).
      * by rewrite list_lookup_alter_ne.
Qed.

(** ** The visibility push of [toggle] *)

Lemma find_layer_In id m l : find_layer id m = Some l -> In id (layer_ids m).
Proof.
  unfold find_layer, layer_ids. intros Hf.
  destruct (find_some _ _ Hf) as [Hin Heq]. apply String.eqb_eq in Heq.
  rewrite <- Heq. change (In (l_id l) (map l_id (m_layers m))).
  by apply in_map.
Qed.

Lemma push_visibility_guarded w0 value id :
  pres (pushing w0) (push_visibility (mapRef w0) value id).
Proof.
  apply pres_wp. intros w [(cs & Hc & Hg) Hl].
  unfold push_visibility. destruct (mapRef w0) as [h|] eqn:Hm; [|by split; eauto].
  wp_run.
  destruct (runs w !! h ≫= λ r, find_layer id (r_map r)) as [l|] eqn:E.
  - wp_run. split.
    + exists (cs ++ [CGetLayer h id; CSetLayoutProperty h id "visibility" value]).
      rewrite Hc, <- !app_assoc. split; [done|].
      apply Forall_app. split; [done|].
      apply Forall_cons_2; [done|]. apply Forall_cons_2; [|apply Forall_nil_2].
      simpl. split; [done|].
      destruct (runs w !! h) as [r|] eqn:Hr; [|done]. simpl in E.
      specialize (Hl h). rewrite Hr in Hl. unfold map_of.
      destruct (runs w0 !! h) as [r0|]; [|done]. injection Hl as Hl.
      exists (r_map r0). split; [done|]. simpl in Hl. rewrite <- Hl.
      by eapply find_layer_In.
    + intros j. rewrite <- Hl. apply layer_ids_alter_restyle.
      intros m. by injection (shape_set_visibility id value m).
  - wp_run. split; [|done].
    exists (cs ++ [CGetLayer h id]). rewrite Hc, <- !app_assoc.
    split; [done|]. apply Forall_app. split; [done|].
    apply Forall_cons_2; [done|apply Forall_nil_2].
Qed.

Lemma guarded_log w0 w c :
  guarded w0 c -> guarded_so_far w0 w ->
  guarded_so_far w0 (set_calls (calls w ++ [c]) w).
Proof.
  intros Hc (cs & -> & Hg). exists (cs ++ [c]). simpl.
  rewrite <- app_assoc. split; [done|]. apply Forall_app. split; [done|].
  apply Forall_cons_2; [done|apply Forall_nil_2].
Qed.

Lemma rerun_effect_guarded w0 : pres (guarded_so_far w0) rerun_effect.
Proof.
  unfold rerun_effect, run_cleanup, effect. pres_go;
    try (by apply guarded_log); done.
Qed.

Lemma toggle_nothrow key : nothrow (toggle key).
Proof.
  unfold toggle, toggle_updater, push_visibility, rerun_effect, run_cleanup,
    effect. nothrow_go.
Qed.

Lemma toggle_calls_guarded key w : guarded_so_far w (exec (toggle key) w).
Proof.
  apply wp_exec. unfold toggle, toggle_updater. repeat wp_prim.
  eapply (wp_pres _ (pushing w)).
  - apply pres_forEach. intros id. apply push_visibility_guarded.
  - split; [|done]. exists []. by rewrite app_nil_r.
  - intros [[]|e] w1 [Hg _]; [|done]. repeat wp_prim.
    eapply (wp_pres _ (guarded_so_far w));
      [apply rerun_effect_guarded|done|done].
Qed.

(** ** Every toggle replaces the map, the same basemap does not *)

Lemma toggle_updater_current h key prev :
  pres (current h) (toggle_updater key prev).
Proof.
  unfold toggle_updater, push_visibility. pres_go;
    unfold current in *; world_norm; rewrite ?length_alter; done.
Qed.

Lemma rerun_effect_replaces h w :
  current h w ->
  wp rerun_effect w (fun _ w' =>
    mapRef w' = Some (S h)
    /\ (m_removed ∘ r_map) <$> runs w' !! h = Some true
    /\ (m_removed ∘ r_map) <$> runs w' !! S h = Some false).
Proof.
  intros (Hm & Hc & Hk & Hl).
  destruct (lookup_lt_is_Some_2 (runs w) h) as [r Hr]; [lia|].
  unfold rerun_effect, run_cleanup, effect. repeat wp_prim.
  rewrite Hc. wp_run. rewrite Hk. simpl negb. cbv iota. wp_run.
  rewrite length_alter, Hl.
  replace (S h) with (length (alter (with_map (with_removed true)) h (runs w)))
    by by rewrite length_alter.
  rewrite alter_snoc. rewrite length_alter, Hl. split; [done|]. split.
  - rewrite lookup_app_l by (rewrite length_alter; lia).
    by rewrite list_lookup_alter_eq, Hr.
  - rewrite lookup_app_r by (rewrite length_alter; lia).
    by rewrite length_alter, Hl, Nat.sub_diag.
Qed.

(** In every reachable state, whatever the layer, [toggle] removes the
    current map and leaves [mapRef] on a new one. *)
Lemma toggle_always_rebuilds key w :
  reachable w ->
  exists h, mapRef w = Some h
    /\ mapRef (step (EvToggle key) w) = Some (S h)
    /\ (m_removed ∘ r_map) <$> runs (step (EvToggle key) w) !! h = Some true
    /\ (m_removed ∘ r_map) <$> runs (step (EvToggle key) w) !! S h
       = Some false.
Proof.
  intros Hw. pose proof (reachable_inv w Hw) as Hi.
  destruct (inv_current w Hi) as (h & Hl & Hm & Hc).
  exists h. split; [done|].
  unfold step. apply wp_settle. simpl. unfold toggle. do 3 wp_prim.
  eapply (wp_pres_returns _ _ (current h));
    [apply toggle_updater_current|apply toggle_updater_returns
    |by repeat split; try apply Hi|].
  intros w1 Hc1. cbv beta iota. repeat wp_prim.
  eapply wp_mono; [by apply rerun_effect_replaces|].
  by intros [].
Qed.

(** Choosing the basemap already shown changes nothing. *)
Lemma setBase_same w : step (EvSetBase (base w)) w = w.
Proof.
  unfold step, settle. simpl. unfold setBase, bind, gets.
  by rewrite decide_True.
Qed.

(** ** The popup on show *)

Lemma composed_last_log c cs w :
  ended_on c = None -> calls w = cs ++ [c] ->
  composed_last w = last (omap ended_on cs).
Proof.
  intros Hc Hw. unfold composed_last. rewrite Hw, omap_app. simpl.
  by rewrite Hc, app_nil_r.
Qed.

(** Popups are only hidden, [popupRef] and the composition that ended last
    are as before, and composed maps stay so. *)
Lemma popup_inv_shrink w w' :
  (forall q j, shown_on w' q j -> shown_on w q j) ->
  popupRef w' = popupRef w -> composed_last w' = composed_last w ->
  (forall j, load_of j w = Some Composed -> load_of j w' = Some Composed) ->
  popup_inv w -> popup_inv w'.
Proof.
  intros Hs Hp Hc Hl [H1 H2]. split.
  - intros q j Hq. by apply Hl, (H1 q), Hs.
  - intros q j Hq. rewrite Hp, Hc. by apply H2, Hs.
Qed.

Lemma shown_on_alter (f : Popup -> Popup) p w ps q j :
  (forall x, p_map (f x) = p_map x \/ p_map (f x) = None) ->
  popups w = ps ->
  (exists pq, alter f p ps !! q = Some pq /\ p_map pq = Some j) ->
  shown_on w q j.
Proof.
  intros Hf <- (pq & Hq & Hj). unfold shown_on.
  destruct (decide (p = q)) as [->|Hne].
  - rewrite list_lookup_alter_eq in Hq.
    destruct (popups w !! q) as [x|]; [|done]. simpl in Hq.
    injection Hq as <-. exists x. split; [done|].
    destruct (Hf x) as [<-|Hn]; [done|]. by rewrite Hn in Hj.
  - rewrite list_lookup_alter_ne in Hq by done. by exists pq.
Qed.

Lemma pi_log c : ended_on c = None -> pres popup_inv (log c).
Proof.
  intros Hc w. apply popup_inv_shrink; try done.
  unfold composed_last. simpl. rewrite omap_app. simpl.
  by rewrite Hc, app_nil_r.
Qed.

Lemma pi_upd_map h f : pres popup_inv (upd_map h f).
Proof.
  intros w. apply popup_inv_shrink; try done.
  intros j. unfold load_of. simpl. by rewrite load_alter_with_map.
Qed.

Lemma pi_upd_popup p f :
  (forall x, p_map (f x) = p_map x \/ p_map (f x) = None) ->
  pres popup_inv (upd_popup p f).
Proof.
  intros Hf w. apply popup_inv_shrink; try done.
  intros q j Hq. eapply shown_on_alter; [exact Hf|reflexivity|exact Hq].
Qed.

Lemma pi_detach h :
  pres popup_inv (modify (fun w => set_popups (detach_from h <$> popups w) w)).
Proof.
  intros w. apply popup_inv_shrink; try done.
  intros q j (pq & Hq & Hj). simpl in Hq. rewrite list_lookup_fmap in Hq.
  destruct (popups w !! q) as [x|] eqn:Hx; [|done]. simpl in Hq.
  injection Hq as <-. exists x. split; [done|].
  unfold detach_from in Hj. by destruct (decide (p_map x = Some h)).
Qed.

Lemma pi_newMap style : pres popup_inv (newMap style).
Proof.
  apply pres_wp. intros w. unfold newMap. wp_run.
  apply popup_inv_shrink; try done.
  - unfold composed_last. simpl. by rewrite omap_app, app_nil_r.
  - intros j. unfold load_of. simpl. apply load_snoc.
Qed.

Lemma pi_newPopup : pres popup_inv newPopup.
Proof.
  apply pres_wp. intros w. unfold newPopup. wp_run.
  apply popup_inv_shrink; try done.
  - intros q j (pq & Hq & Hj). simpl in Hq.
    apply lookup_snoc_Some in Hq as [[_ Hq]|[_ <-]]; [by exists pq|done].
  - unfold composed_last. simpl. by rewrite omap_app, app_nil_r.
Qed.

Ltac pi_go :=
  unfold addControl, on, addSource, addLayer, setLayoutProperty, getLayer,
    queryRenderedFeatures, setCursor, removeMap, fetch,
    popupRemove, popupSetLngLat, popupSetHTML;
  repeat lazymatch goal with
    | |- pres _ (newMap _) => apply pi_newMap
    | |- pres _ (log _) => apply pi_log; reflexivity
    | |- pres _ (upd_map _ _) => apply pi_upd_map
    | |- pres _ (upd_popup _ _) => apply pi_upd_popup; intros ?; simpl; auto
    | |- pres _ (modify (fun w => set_popups (detach_from _ <$> popups w) w)) =>
        apply pi_detach
    | |- pres _ (modify _) =>
        apply pres_modify; intros ?; by apply popup_inv_shrink
    | |- _ => pres_struct
    end.

Lemma pi_toggle key : pres popup_inv (toggle key).
Proof.
  unfold toggle, toggle_updater, push_visibility, rerun_effect, run_cleanup,
    effect. pi_go.
Qed.

Lemma pi_setBase k : pres popup_inv (setBase k).
Proof. unfold setBase, rerun_effect, run_cleanup, effect. pi_go. Qed.

Lemma pi_on_mouseout : pres popup_inv on_mouseout.
Proof. unfold on_mouseout. pi_go. Qed.

Lemma listener_composed w h :
  inv w -> listening h "mousemove" w = true -> load_of h w = Some Composed.
Proof.
  intros Hw. unfold listening, load_of.
  destruct (runs w !! h) as [r|] eqn:Hh; [|done].
  intros [_ Hon]%andb_prop.
  destruct (Forall_lookup_1 _ _ _ _ (inv_runs w Hw) Hh) as [_ Hm].
  simpl. destruct (r_load r); try done;
    destruct Hm as (_ & _ & Hm); by rewrite Hm in Hon.
Qed.

(** The ["mousemove"] listener shows no popup but the one of [popupRef], and
    shows it on its own map. *)
Lemma pi_on_mousemove h e w :
  inv w -> listening h "mousemove" w = true -> popup_inv w ->
  wp (on_mousemove h e) w (fun _ w' => popup_inv w').
Proof.
  intros Hi Hl Hw.
  pose proof (listener_composed w h Hi Hl) as Hc.
  destruct (hover_listener w h Hi Hl) as (r & p & Hh & _ & Hp & _).
  unfold on_mousemove. wp_run. rewrite Hh, Hp.
  assert (Hload : forall g j, load_of j w = Some Composed ->
            r_load <$> alter (with_map g) h (runs w) !! j = Some Composed).
  { intros g j. by rewrite load_alter_with_map. }
  assert (Hlast : forall cs,
            omap ended_on cs = [] ->
            last (omap ended_on (calls w ++ cs)) = composed_last w).
  { intros cs Hcs. by rewrite omap_app, Hcs, app_nil_r. }
  destruct (rendered (r_map r) (e_under e) hoverTargets) as [|f rest].
  - wp_run. revert Hw. apply popup_inv_shrink; try done.
    + intros q j Hq.
      eapply shown_on_alter; [|reflexivity|exact Hq]. simpl. auto.
    + unfold composed_last. simpl. rewrite <- !app_assoc. by apply Hlast.
    + intros j. unfold load_of. simpl. apply Hload.
  - wp_run. destruct Hw as [H1 H2]. split.
    + intros q j (pq & Hq & Hj). unfold load_of. simpl in *. apply Hload.
      rewrite !alter_alter in Hq.
      destruct (decide (p = q)) as [->|Hne].
      * rewrite list_lookup_alter_eq in Hq.
        destruct (popups w !! q); [|done]. simpl in Hq.
        injection Hq as <-. simpl in Hj. by injection Hj as <-.
      * rewrite list_lookup_alter_ne in Hq by done. apply (H1 q). by exists pq.
    + intros q j (pq & Hq & Hj). unfold composed_last. simpl in *.
      rewrite <- !app_assoc. rewrite Hlast by done.
      rewrite !alter_alter in Hq.
      destruct (decide (p = q)) as [->|Hne]; [done|].
      rewrite list_lookup_alter_ne in Hq by done.
      intros Hj'. rewrite <- Hp. apply (H2 q j); [by exists pq|done].
Qed.

Lemma pi_set_load h r s w cs :
  runs w !! h = Some r -> r_load r <> Composed -> omap ended_on cs = [] ->
  popup_inv w ->
  popup_inv {| base := base w; visible := visible w; mapRef := mapRef w;
               popupRef := popupRef w; containerRef := containerRef w;
               cleanup := cleanup w;
               runs := alter (with_load s) h (runs w);
               popups := popups w; calls := calls w ++ cs;
               uncaught := uncaught w |}.
Proof.
  intros Hh Hl Hcs. apply popup_inv_shrink; try done.
  - unfold composed_last. simpl. by rewrite omap_app, Hcs, app_nil_r.
  - intros j Hj. unfold load_of in *. simpl.
    rewrite load_alter_with_load_ne; [done|].
    intros ->. rewrite Hh in Hj. simpl in Hj. by injection Hj.
Qed.

(** A composition ends last and leaves its own map without a popup. *)
Lemma pi_compose h r deps coms secs w :
  runs w !! h = Some r -> r_load r = AwaitSecs deps coms -> inv w ->
  popup_inv w ->
  wp (call compose h (r_visible r) deps coms secs;
      upd_run h (with_load Composed)) w
     (fun _ w' => popup_inv w').
Proof.
  intros Hh Hl Hi [H1 H2].
  assert (Hr : run_ok r) by (eapply Forall_lookup_1; [apply Hi|done]).
  destruct Hr as [Hk _].
  assert (Hnone : forall q j, shown_on w q j -> j <> h).
  { intros q j Hq ->. specialize (H1 q h Hq). unfold load_of in H1.
    rewrite Hh in H1. simpl in H1. by rewrite Hl in H1. }
  unfold compose, apply. rewrite Hk.
  cbn [key_names all_keys key_name fmap list_fmap forEach].
  change (apply_ids "departments")
    with ["departments-fill"; "departments-outline"].
  change (apply_ids "communes") with ["communes-outline"].
  change (apply_ids "sections") with ["sections-fill"; "sections-outline"].
  cbn [forEach].
  wp_run.
  assert (Hold : forall q j,
            shown_on {| base := base w; visible := visible w;
                        mapRef := mapRef w; popupRef := popupRef w;
                        containerRef := containerRef w; cleanup := cleanup w;
                        runs := runs w;
                        popups := popups w ++ [{| p_map := None;
                                                  p_lnglat := None;
                                                  p_html := EmptyString |}];
                        calls := calls w; uncaught := uncaught w |} q j ->
            shown_on w q j).
  { intros q j (pq & Hq & Hj). simpl in Hq.
    apply lookup_snoc_Some in Hq as [[_ Hq]|[_ <-]]; [by exists pq|done]. }
  split.
  - intros q j Hq. apply Hold in Hq.
    pose proof (Hnone q j Hq) as Hne. specialize (H1 q j Hq).
    unfold load_of in *. simpl. rewrite !alter_alter.
    by rewrite list_lookup_alter_ne.
  - intros q j Hq. apply Hold in Hq.
    pose proof (Hnone q j Hq) as Hne.
    unfold composed_last. simpl. rewrite omap_app. simpl.
    rewrite last_snoc. by intros [= ->].
Qed.

Lemma pi_resume h r res w :
  runs w !! h = Some r -> inv w -> popup_inv w ->
  wp (resume h r res) w (fun _ w' => popup_inv w').
Proof.
  intros Hh Hi Hw. unfold resume.
  destruct (r_load r) eqn:Hl, res as [data|]; try exact Hw.
  all: try (unfold fetch; wp_run;
            first [ apply (pi_set_load h r _ w [_])
                  | rewrite <- (app_nil_r (calls w));
                    apply (pi_set_load h r _ w []) ];
            (done || by rewrite Hl)).
  by apply pi_compose.
Qed.

Lemma popup_inv_uncaught e w : popup_inv w -> popup_inv (set_uncaught e w).
Proof. by apply popup_inv_shrink. Qed.

Lemma step_popup_inv ev w : inv w -> popup_inv w -> popup_inv (step ev w).
Proof.
  intros Hi Hw. unfold step. apply wp_settle.
  enough (wp (handler_of ev w) w (fun _ w' => popup_inv w')) as H.
  { eapply wp_mono; [exact H|].
    intros [] w' Hw'; [done|by apply popup_inv_uncaught]. }
  destruct ev as [key|k|h|h res|h e|h]; simpl.
  - by apply pi_toggle.
  - by apply pi_setBase.
  - destruct (listening h "load" w); [|done]. simpl.
    destruct (not_fired h w) eqn:Hf; [|done].
    unfold not_fired, load_of in Hf.
    destruct (runs w !! h) as [r|] eqn:Hh; [|done]. simpl in Hf.
    unfold on_load, fetch. wp_run.
    apply (pi_set_load h r _ w [_]); try done. by destruct (r_load r).
  - destruct (runs w !! h) as [r|] eqn:Hh; [|done]. by apply pi_resume.
  - destruct (listening h "mousemove" w) eqn:Hl; [|done].
    by apply pi_on_mousemove.
  - destruct (listening h "mouseout" w); [|done]. by apply pi_on_mouseout.
Qed.

Lemma reachable_popup_inv w : reachable w -> popup_inv w.
Proof.
  induction 1 as [|w ev Hw IH].
  - split; by intros q j (pq & Hq & _).
  - apply step_popup_inv; [by apply reachable_inv|done].
Qed.

Lemma hovering_reachable : reachable hovering.
Proof. apply reach_step, ready_reachable. Qed.

Lemma orphaned_reachable : reachable orphaned.
Proof. apply reachable_steps, reach_mounted. Qed.

(** * The claims *)

(** C1 (the code departs from it): with the layers composed on map 0,
    toggling communes pushes the new visibility to map 0 and then, because
    [visible] is a dependency of the effect, removes map 0 and creates map 1:
    [mapRef] no longer designates the same object, and the new map has no
    layer until its own composition ends. *)
Theorem toggle_rebuilds_surface :
  mapRef ready = Some 0
  /\ m_removed <$> map_of 0 ready = Some false
  /\ issued (toggle communes) ready
     = [CGetLayer 0 "communes-outline";
        CSetLayoutProperty 0 "communes-outline" "visibility" "visible";
        CRemove 0;
        CNewMap 1 "/styles/opentopo.json";
        CAddControl 1 "NavigationControl" (Some "top-right");
        CAddControl 1 "ScaleControl" None;
        COn 1 "load"]
  /\ mapRef (step (EvToggle communes) ready) = Some 1
  /\ m_removed <$> map_of 0 (step (EvToggle communes) ready) = Some true
  /\ layer_ids <$> map_of 1 (step (EvToggle communes) ready) = Some []
  /\ base (step (EvToggle communes) ready) = base ready.
Proof. vm_compute. repeat split; reflexivity. Qed.

(** C2, as stated, fails: departments resolves, communes is rejected; the
    handler ends there, the sections fetch is never issued, and map 0 has
    neither the departments nor the sections source or layers. *)
Lemma one_failed_fetch_others_registered_cex :
  let w := steps [EvLoad 0; EvFetch 0 (Some sample); EvFetch 0 None;
                  EvFetch 0 (Some sample)] mounted in
  exists m, map_of 0 w = Some m
    /\ load_of 0 w = Some Rejected
    /\ uncaught w = [FetchRejected url_communes]
    /\ ~ (In "departments" (source_names m) /\ In "sections" (source_names m)
          /\ forall id, In id (apply_ids "departments" ++ apply_ids "sections")
                        -> In id (layer_ids m)).
Proof.
  eexists. split; [reflexivity|]. split; [reflexivity|]. split; [reflexivity|].
  intros (H & _). exact H.
Qed.

(** C2 (amended): when a fetch of a composition pass is rejected, the
    ["load"] handler ends at that [await] without making any call, and from
    then on, whatever happens, its map has no source and no style layer: a
    failed fetch leaves none of the three LogicalLayers registered. *)
Theorem failed_fetch_registers_nothing (w : World) (h : nat) (r : EffectRun)
    (evs : list Event) :
  reachable w ->
  runs w !! h = Some r ->
  pending (r_load r) = true ->
  calls (step (EvFetch h None) w) = calls w
  /\ load_of h (steps evs (step (EvFetch h None) w)) = Some Rejected
  /\ exists m, map_of h (steps evs (step (EvFetch h None) w)) = Some m
       /\ m_sources m = [] /\ m_layers m = [].
Proof.
  intros Hw Hh Hp. destruct (failed_fetch_step w h r Hh Hp) as [Hl Hc].
  split; [done|].
  pose proof (rejected_stable_steps evs _ _ Hl) as Hl'.
  split; [done|].
  assert (Hr : reachable (steps evs (step (EvFetch h None) w)))
    by by apply reachable_steps, reach_step.
  pose proof (inv_runs _ (reachable_inv _ Hr)) as Hruns.
  unfold load_of, map_of in *.
  destruct (runs (steps evs (step (EvFetch h None) w)) !! h) as [r'|] eqn:Hh';
    [|done].
  injection Hl' as Hl'. exists (r_map r'). split; [done|].
  destruct (Forall_lookup_1 _ _ _ _ Hruns Hh') as [_ Hm]. rewrite Hl' in Hm.
  by destruct Hm as (? & ? & _).
Qed.

Lemma failed_fetch_registers_nothing_witness :
  let w := steps [EvLoad 0; EvFetch 0 (Some sample)] mounted in
  let w' := steps [EvFetch 0 (Some sample); EvToggle communes]
              (step (EvFetch 0 None) w) in
  calls (step (EvFetch 0 None) w) = calls w
  /\ load_of 0 w' = Some Rejected
  /\ exists m, map_of 0 w' = Some m /\ m_sources m = [] /\ m_layers m = [].
Proof.
  apply (failed_fetch_registers_nothing
           (steps [EvLoad 0; EvFetch 0 (Some sample)] mounted) 0
           {| r_map := with_on ["load"] (fresh_map (STYLES terrain));
              r_visible := visible init; r_load := AwaitComs sample |}
           [EvFetch 0 (Some sample); EvToggle communes]).
  - apply reachable_steps, reach_mounted.
  - reflexivity.
  - reflexivity.
Defined.

(** C3: whenever a ["load"] handler has run to its end, the [addLayer]
    calls made on its map were, in order, departments-fill,
    departments-outline, communes-outline, sections-fill, sections-outline,
    and these are the layers the map holds, bottom to top; this holds however
    the events (fetch settlements among them) were interleaved. *)
Theorem registration_in_catalog_order (w : World) (h : nat) :
  reachable w ->
  load_of h w = Some Composed ->
  registrations h w
  = ["departments-fill"; "departments-outline"; "communes-outline";
     "sections-fill"; "sections-outline"]
  /\ exists m, map_of h w = Some m
       /\ layer_ids m = registrations h w
       /\ source_names m = ["departments"; "communes"; "sections"].
Proof.
  intros Hw. unfold load_of, map_of.
  pose proof (reachable_log_ok w Hw h) as Hlog.
  destruct (runs w !! h) as [r|] eqn:Hh; [|done]. simpl in *. intros [= Hl].
  pose proof (inv_runs w (reachable_inv w Hw)) as Hr.
  destruct (Forall_lookup_1 _ _ _ _ Hr Hh) as [_ Hm]. rewrite Hl in Hm.
  destruct Hm as (Hs & Hi & _). rewrite Hlog. split; [done|].
  by exists (r_map r).
Qed.

Lemma registration_in_catalog_order_witness :
  reachable ready /\ load_of 0 ready = Some Composed
  /\ registrations 0 ready
     = ["departments-fill"; "departments-outline"; "communes-outline";
        "sections-fill"; "sections-outline"]
  /\ exists m, map_of 0 ready = Some m
       /\ layer_ids m = registrations 0 ready
       /\ source_names m = ["departments"; "communes"; "sections"].
Proof.
  split; [apply ready_reachable|]. split; [reflexivity|].
  apply (registration_in_catalog_order ready 0 ready_reachable). reflexivity.
Defined.

(** C4, as stated, fails: the style changes while the composition of map 0
    awaits its first fetch; map 0 is removed and map 1 created.  The three
    fetches of map 0 then resolve: the handler of map 0 resumes each time
    and ends by registering sources and layers on the removed map 0. *)
Lemma stale_callback_is_dropped_cex :
  let w := steps [EvLoad 0; EvSetBase dark; EvFetch 0 (Some sample);
                  EvFetch 0 (Some sample)] mounted in
  m_removed <$> map_of 0 w = Some true
  /\ mapRef w = Some 1
  /\ load_of 0 w = Some (AwaitSecs sample sample)
  /\ In (CAddSource 0 "departments")
        (issued (handler_of (EvFetch 0 (Some sample)) w) w)
  /\ In (CAddLayer 0 "sections-fill")
        (issued (handler_of (EvFetch 0 (Some sample)) w) w)
  /\ layer_ids <$> map_of 0 (step (EvFetch 0 (Some sample)) w)
     = Some catalog_order.
Proof. vm_compute. repeat split; auto 20. Qed.

(** C4 (amended): a fetch that settles after its map was removed is not
    dropped.  The ["load"] handler of that map resumes: after the first and
    the second fetch it issues the next one, and after the third it calls
    [addSource] for the three sources and then [addLayer] for the five
    layers, in the order of the source text, on the removed map it
    captured.  Every call it makes is on that map (or on no map), and no
    other map, the replacement included, is changed. *)
Theorem stale_resume_confined (w : World) (h : nat) (r : EffectRun)
    (res : option GeoJSON) (h' : nat) :
  reachable w ->
  runs w !! h = Some r ->
  m_removed (r_map r) = true ->
  h' <> h ->
  (forall c, In c (issued (handler_of (EvFetch h res) w) w) ->
             call_map c <> Some h')
  /\ runs (step (EvFetch h res) w) !! h' = runs w !! h'
  /\ (forall deps coms secs,
        r_load r = AwaitSecs deps coms -> res = Some secs ->
        (exists rest,
           issued (handler_of (EvFetch h res) w) w
           = [CAddSource h "departments"; CAddSource h "communes";
              CAddSource h "sections";
              CAddLayer h "departments-fill";
              CAddLayer h "departments-outline";
              CAddLayer h "communes-outline";
              CAddLayer h "sections-fill";
              CAddLayer h "sections-outline"] ++ rest)
        /\ (forall name, In name ["departments"; "communes"; "sections"] ->
                         In (CAddSource h name)
                            (issued (handler_of (EvFetch h res) w) w))
        /\ (forall id, In id catalog_order ->
                       In (CAddLayer h id)
                          (issued (handler_of (EvFetch h res) w) w)))
  /\ (forall deps, r_load r = AwaitDeps -> res = Some deps ->
        issued (handler_of (EvFetch h res) w) w = [CFetch url_communes]
        /\ load_of h (step (EvFetch h res) w) = Some (AwaitComs deps))
  /\ (forall deps coms, r_load r = AwaitComs deps -> res = Some coms ->
        issued (handler_of (EvFetch h res) w) w = [CFetch url_sections]
        /\ load_of h (step (EvFetch h res) w) = Some (AwaitSecs deps coms)).
Proof.
  intros Hw Hh _ Hne.
  destruct (resume_effects h r res w Hh (reachable_inv _ Hw))
    as (cs & Hc & Hf & Hr & Hpos).
  assert (Hi : issued (handler_of (EvFetch h res) w) w = cs).
  { simpl. rewrite Hh. by apply issued_app. }
  split; [|split; [|split; [|split]]].
  - rewrite Hi. intros c Hin. rewrite Forall_forall in Hf.
    destruct (Hf c) as [Hm|Hm]; [by apply list_elem_of_In|..];
      rewrite Hm; congruence.
  - unfold step. rewrite settle_runs. simpl. rewrite Hh. by apply Hr.
  - rewrite Hi. intros deps coms secs Hl Hres.
    specialize (Hpos deps coms secs Hl Hres).
    assert (Hcs : cs = ((CAddSource h <$> key_names)
                        ++ (CAddLayer h <$> catalog_order)) ++ drop 8 cs).
    { rewrite Hpos. symmetry. apply take_drop. }
    split; [exists (drop 8 cs); exact Hcs|].
    split.
    + intros name Hin. rewrite Hcs. apply in_or_app. left.
      apply in_or_app. left.
      change (In (CAddSource h name) (map (CAddSource h) key_names)).
      by apply in_map.
    + intros id Hid. rewrite Hcs. apply in_or_app. left.
      apply in_or_app. right.
      change (In (CAddLayer h id) (map (CAddLayer h) catalog_order)).
      by apply in_map.
  - intros deps Hl ->. unfold step, issued, exec, load_of. simpl.
    rewrite Hh. unfold resume. rewrite Hl. simpl.
    rewrite drop_app_length. split; [done|].
    by rewrite list_lookup_alter_eq, Hh.
  - intros deps coms Hl ->. unfold step, issued, exec, load_of. simpl.
    rewrite Hh. unfold resume. rewrite Hl. simpl.
    rewrite drop_app_length. split; [done|].
    by rewrite list_lookup_alter_eq, Hh.
Qed.

Lemma stale_resume_confined_witness :
  let w := steps [EvLoad 0; EvSetBase dark; EvFetch 0 (Some sample);
                  EvFetch 0 (Some sample)] mounted in
  (forall c, In c (issued (handler_of (EvFetch 0 (Some sample)) w) w) ->
             call_map c <> Some 1)
  /\ runs (step (EvFetch 0 (Some sample)) w) !! 1 = runs w !! 1
  /\ (forall deps coms secs,
        AwaitSecs sample sample = AwaitSecs deps coms ->
        Some sample = Some secs ->
        (exists rest,
           issued (handler_of (EvFetch 0 (Some sample)) w) w
           = [CAddSource 0 "departments"; CAddSource 0 "communes";
              CAddSource 0 "sections";
              CAddLayer 0 "departments-fill";
              CAddLayer 0 "departments-outline";
              CAddLayer 0 "communes-outline";
              CAddLayer 0 "sections-fill";
              CAddLayer 0 "sections-outline"] ++ rest)
        /\ (forall name, In name ["departments"; "communes"; "sections"] ->
                         In (CAddSource 0 name)
                            (issued (handler_of (EvFetch 0 (Some sample)) w) w))
        /\ (forall id, In id catalog_order ->
                       In (CAddLayer 0 id)
                          (issued (handler_of (EvFetch 0 (Some sample)) w) w)))
  /\ (forall deps, AwaitSecs sample sample = AwaitDeps ->
        Some sample = Some deps ->
        issued (handler_of (EvFetch 0 (Some sample)) w) w = [CFetch url_communes]
        /\ load_of 0 (step (EvFetch 0 (Some sample)) w) = Some (AwaitComs deps))
  /\ (forall deps coms, AwaitSecs sample sample = AwaitComs deps ->
        Some sample = Some coms ->
        issued (handler_of (EvFetch 0 (Some sample)) w) w = [CFetch url_sections]
        /\ load_of 0 (step (EvFetch 0 (Some sample)) w)
           = Some (AwaitSecs deps coms)).
Proof.
  apply (stale_resume_confined
           (steps [EvLoad 0; EvSetBase dark; EvFetch 0 (Some sample);
                   EvFetch 0 (Some sample)] mounted) 0
           {| r_map := with_removed true
                         (with_on ["load"] (fresh_map (STYLES terrain)));
              r_visible := visible init;
              r_load := AwaitSecs sample sample |}
           (Some sample) 1).
  - apply reachable_steps, reach_mounted.
  - reflexivity.
  - reflexivity.
  - lia.
Defined.



(** C6: toggling the same layer twice brings the stored boolean of that
    layer back to the value it had. *)
Theorem toggle_twice_restores (k : LayerKey) (w : World) (b : bool) :
  stored w k = Some b ->
  stored (step (EvToggle k) (step (EvToggle k) w)) k = Some b.
Proof.
  unfold stored. intros Hb. rewrite !toggle_visible.
  assert (Hn : obj_get (visible w) (key_name k) <> None) by by rewrite Hb.
  rewrite obj_set_set, !obj_get_set by done.
  rewrite Hb. simpl. by rewrite negb_involutive.
Qed.

Lemma toggle_twice_restores_witness :
  stored mounted communes = Some false
  /\ stored (step (EvToggle communes) (step (EvToggle communes) mounted))
       communes = Some false.
Proof.
  split; [reflexivity|].
  apply (toggle_twice_restores communes mounted false). reflexivity.
Defined.

(** C7: in the initial state and after any sequence of events, the
    visibility object has exactly the three properties departments, communes
    and sections, once each, and each holds a boolean. *)
Theorem visibility_state_total (w : World) :
  reachable w ->
  obj_keys (visible w) = ["departments"; "communes"; "sections"]
  /\ (forall k : LayerKey, exists b, stored w k = Some b)
  /\ (forall s, In s (obj_keys (visible w)) -> exists k, s = key_name k).
Proof.
  intros Hw. pose proof (inv_keys w (reachable_inv w Hw)) as Hk.
  split; [exact Hk|]. split.
  - intros k. unfold stored.
    destruct (obj_get (visible w) (key_name k)) as [b|] eqn:E; [by exists b|].
    exfalso. revert E. apply obj_get_keys. rewrite Hk. apply key_name_in.
  - intros s. rewrite Hk. simpl.
    intros [<-|[<-|[<-|[]]]];
      [by exists departments|by exists communes|by exists sections].
Qed.

Lemma visibility_state_total_witness :
  let w := step (EvSetBase dark) (step (EvToggle sections) mounted) in
  reachable w
  /\ obj_keys (visible w) = ["departments"; "communes"; "sections"]
  /\ (forall k : LayerKey, exists b, stored w k = Some b)
  /\ (forall s, In s (obj_keys (visible w)) -> exists k, s = key_name k).
Proof.
  assert (H : reachable (step (EvSetBase dark) (step (EvToggle sections) mounted)))
    by (do 2 apply reach_step; apply reach_mounted).
  split; [exact H|]. apply (visibility_state_total _ H).
Defined.

(** C8: [toggle] never throws, and every [setLayoutProperty] call it makes
    is on the map [mapRef] designates and names a layer that map has; so
    with no map, or for an id the map does not have yet, the push is
    skipped. *)
Theorem toggle_push_is_guarded (key : LayerKey) (w : World) :
  completes (toggle key) w = true
  /\ (forall h id prop value,
        In (CSetLayoutProperty h id prop value) (issued (toggle key) w) ->
        mapRef w = Some h
        /\ exists m, map_of h w = Some m /\ In id (layer_ids m))
  /\ (mapRef w = None ->
      Forall (fun c => is_set_layout c = false) (issued (toggle key) w)).
Proof.
  destruct (toggle_calls_guarded key w) as (cs & Hc & Hg).
  rewrite (issued_app _ _ _ Hc). rewrite Forall_forall in Hg.
  split; [|split].
  - unfold completes. by destruct (toggle_nothrow key w) as [a ->].
  - intros h id prop value Hin. by apply (Hg _ (proj2 (list_elem_of_In _ _) Hin)).
  - intros Hnone. apply Forall_forall. intros c Hin.
    specialize (Hg c Hin). destruct c; try done.
    simpl in Hg. destruct Hg as [Hg _]. congruence.
Qed.

(** C9, as stated, fails: the basemap is changed while map 0 is fetching,
    map 1 is composed and the pointer shows popup 0 on it; the fetches of
    the removed map 0 then resolve and its handler binds [popupRef] to the
    popup 1 it creates (line 83).  A pointer move over nothing on map 1 now
    calls [remove()] on popup 1, and popup 0 stays shown on map 1. *)
Lemma hover_nothing_removes_popup_cex :
  reachable orphaned
  /\ listening 1 "mousemove" orphaned = true
  /\ mapRef orphaned = Some 1
  /\ (exists m, map_of 1 orphaned = Some m
        /\ rendered m (e_under over_nothing) hoverTargets = [])
  /\ popupRef orphaned = Some 1
  /\ p_map <$> popups orphaned !! 0 = Some (Some 1)
  /\ issued (handler_of (EvMouseMove 1 over_nothing) orphaned) orphaned
     = [CQueryRenderedFeatures 1 (e_point over_nothing) hoverTargets;
        CSetCursor 1 EmptyString; CPopupRemove 1]
  /\ p_map <$> popups (step (EvMouseMove 1 over_nothing) orphaned) !! 0
     = Some (Some 1).
Proof.
  split; [exact orphaned_reachable|].
  vm_compute. repeat split. by eexists.
Qed.

(** C9 (amended): when the query of a pointer move returns no feature, the
    listener resets the cursor of the map to the empty style and calls
    [remove()] on the popup [popupRef] designates; it places, moves or
    relabels no popup.  When the composition of the map is the one that
    ended last, no popup is left shown on the map. *)
Theorem hover_nothing_clears (w : World) (h : nat) (m : MapObj)
    (e : MouseEvent) :
  reachable w ->
  listening h "mousemove" w = true ->
  map_of h w = Some m ->
  rendered m (e_under e) hoverTargets = [] ->
  m_cursor <$> map_of h (step (EvMouseMove h e) w) = Some EmptyString
  /\ (exists p pp, popupRef w = Some p
        /\ popups (step (EvMouseMove h e) w) !! p = Some pp
        /\ p_map pp = None
        /\ In (CPopupRemove p) (issued (handler_of (EvMouseMove h e) w) w))
  /\ Forall (fun c => is_popup_write c = false)
       (issued (handler_of (EvMouseMove h e) w) w)
  /\ (forall q, p_html <$> popups (step (EvMouseMove h e) w) !! q
                = p_html <$> popups w !! q)
  /\ (forall q, p_lnglat <$> popups (step (EvMouseMove h e) w) !! q
                = p_lnglat <$> popups w !! q)
  /\ (composed_last w = Some h ->
      forall q, ~ shown_on (step (EvMouseMove h e) w) q h).
Proof.
  intros Hw Hl Hm Hf.
  destruct (hover_listener w h (reachable_inv w Hw) Hl)
    as (r & p & Hh & Hload & Hp & Hlt).
  unfold map_of in Hm. rewrite Hh in Hm. injection Hm as <-.
  destruct (on_mousemove_nothing w h r e p Hl Hh Hp Hlt Hf)
    as (Hc & Hi & (pp & Hpp & Hpm) & Hhtml & Hll).
  split; [done|]. split; [|split; [|split; [|split]]]; try done.
  - exists p, pp. rewrite Hi. repeat split; try done. simpl. auto.
  - rewrite Hi. repeat constructor.
  - intros Hlast q Hq.
    pose proof (reachable_popup_inv _ (reach_step w (EvMouseMove h e) Hw))
      as [_ H2].
    assert (Hlast' : composed_last (step (EvMouseMove h e) w) = Some h).
    { rewrite <- Hlast. unfold composed_last.
      assert (Hcalls : calls (step (EvMouseMove h e) w)
                       = calls w
                         ++ [CQueryRenderedFeatures h (e_point e) hoverTargets;
                             CSetCursor h EmptyString; CPopupRemove p]).
      { unfold step. apply wp_settle. simpl. rewrite Hl.
        unfold on_mousemove. wp_run. rewrite Hh, Hf, Hp. wp_run.
        by rewrite <- !app_assoc. }
      rewrite Hcalls, omap_app. simpl. by rewrite app_nil_r. }
    assert (Href : popupRef (step (EvMouseMove h e) w) = Some p).
    { unfold step. apply wp_settle. simpl. rewrite Hl.
      unfold on_mousemove. wp_run. rewrite Hh, Hf, Hp. by wp_run. }
    pose proof (H2 q h Hq Hlast') as Hqp. rewrite Href in Hqp.
    injection Hqp as <-. destruct Hq as (pq & Hq1 & Hq2).
    rewrite Hpp in Hq1. injection Hq1 as <-. by rewrite Hpm in Hq2.
Qed.

Lemma hover_nothing_clears_witness :
  p_map <$> popups hovering !! 0 = Some (Some 0)
  /\ composed_last hovering = Some 0
  /\ exists m, map_of 0 hovering = Some m
    /\ rendered m (e_under over_nothing) hoverTargets = []
    /\ m_cursor <$> map_of 0 (step (EvMouseMove 0 over_nothing) hovering)
       = Some EmptyString
    /\ (exists p pp, popupRef hovering = Some p
          /\ popups (step (EvMouseMove 0 over_nothing) hovering) !! p = Some pp
          /\ p_map pp = None
          /\ In (CPopupRemove p)
               (issued (handler_of (EvMouseMove 0 over_nothing) hovering)
                  hovering))
    /\ Forall (fun c => is_popup_write c = false)
         (issued (handler_of (EvMouseMove 0 over_nothing) hovering) hovering)
    /\ (forall q,
          p_html <$> popups (step (EvMouseMove 0 over_nothing) hovering) !! q
          = p_html <$> popups hovering !! q)
    /\ (forall q,
          p_lnglat <$> popups (step (EvMouseMove 0 over_nothing) hovering) !! q
          = p_lnglat <$> popups hovering !! q)
    /\ (composed_last hovering = Some 0 ->
        forall q, ~ shown_on (step (EvMouseMove 0 over_nothing) hovering) q 0).
Proof.
  split; [vm_compute; reflexivity|]. split; [vm_compute; reflexivity|].
  eexists. split; [vm_compute; reflexivity|]. split; [vm_compute; reflexivity|].
  refine (hover_nothing_clears hovering 0 _ over_nothing hovering_reachable
            _ _ _).
  - vm_compute. reflexivity.
  - vm_compute. reflexivity.
  - vm_compute. reflexivity.
Defined.

(** C10: the id list of a LogicalLayer is written twice, in [apply] and in
    [toggle]; the two agree on every key (in fact on every string), and give
    departments-fill and departments-outline for departments,
    communes-outline for communes, sections-fill and sections-outline for
    sections. *)
Theorem apply_and_toggle_ids_agree (k : LayerKey) :
  apply_ids (key_name k) = toggle_ids (key_name k)
  /\ (forall s, apply_ids s = toggle_ids s)
  /\ toggle_ids (key_name k)
     = match k with
       | departments => ["departments-fill"; "departments-outline"]
       | communes => ["communes-outline"]
       | sections => ["sections-fill"; "sections-outline"]
       end.
Proof. by destruct k. Qed.

(** * Further properties *)

(** ** The live map *)

Lemma lookup_alter_ind {A} (P : nat -> A -> Prop) (f : A -> A) i (l : list A) :
  (forall j x, l !! j = Some x -> P j x) ->
  (forall x, l !! i = Some x -> P i x -> P i (f x)) ->
  forall j y, alter f i l !! j = Some y -> P j y.
Proof.
  intros Hl Hf j y. rewrite list_lookup_alter. case_decide as Hij.
  - subst j. destruct (l !! i) as [x|] eqn:Hx; [|done].
    intros [= <-]. auto.
  - auto.
Qed.

Lemma mid_frame w w' :
  runs w' = runs w -> length (popups w') = length (popups w) ->
  popupRef w' = popupRef w -> mid w -> mid w'.
Proof.
  intros Hr Hp Hq [H1 H2 H3]. split; rewrite ?Hr; try done.
  unfold newest_popup in *. rewrite Hq. destruct (popupRef w).
  - by rewrite Hp.
  - destruct (popups w'); [done|]. by rewrite H3 in Hp.
Qed.

Lemma mid_upd_map h f :
  (forall m, m_removed (f m) = m_removed m) ->
  (forall m, descriptors (f m) = descriptors m) ->
  pres mid (upd_map h f).
Proof.
  intros Hr Hd w [H1 H2 H3]. split; simpl; [| |done].
  - rewrite length_alter.
    apply (lookup_alter_ind
             (fun j r => m_removed (r_map r) = false <-> S j = length (runs w)));
      [done|]. intros r _. simpl. by rewrite Hr.
  - apply (lookup_alter_ind (fun _ r => settled r)); [done|].
    intros r _. unfold settled. simpl. by rewrite Hd.
Qed.

Lemma mid_upd_load h s : s <> Composed -> pres mid (upd_run h (with_load s)).
Proof.
  intros Hs w [H1 H2 H3]. split; simpl; [| |done].
  - rewrite length_alter.
    by apply (lookup_alter_ind
             (fun j r => m_removed (r_map r) = false <-> S j = length (runs w))).
  - apply (lookup_alter_ind (fun _ r => settled r)); [done|].
    intros r _ _. by intros ?.
Qed.

Lemma mid_upd_popup p f : pres mid (upd_popup p f).
Proof. intros w. apply mid_frame; simpl; by rewrite ?length_alter. Qed.

Lemma mid_log c : pres mid (log c).
Proof. intros w. by apply mid_frame. Qed.

Lemma descriptors_set_visibility id value m :
  descriptors (with_layers (set_visibility id value <$> m_layers m) m)
  = descriptors m.
Proof.
  unfold descriptors. simpl. rewrite <- list_fmap_compose.
  apply list_fmap_ext. intros _ l _. unfold set_visibility. simpl.
  by destruct (String.eqb (l_id l) id).
Qed.

Ltac mid_go :=
  unfold addControl, on, addSource, setLayoutProperty, getLayer,
    queryRenderedFeatures, setCursor, fetch, popupRemove, popupSetLngLat,
    popupSetHTML, popupAddTo;
  repeat lazymatch goal with
    | |- pres _ (upd_run _ (with_load _)) => apply mid_upd_load; done
    | |- pres _ (log _) => apply mid_log
    | |- pres _ (upd_popup _ _) => apply mid_upd_popup
    | |- pres _ (upd_map _ _) =>
        apply mid_upd_map; intros ?;
        first [reflexivity | apply descriptors_set_visibility]
    | |- _ => pres_struct
    end.

Lemma mid_toggle_updater key prev : pres mid (toggle_updater key prev).
Proof. unfold toggle_updater, push_visibility. mid_go. Qed.

Lemma mid_on_mousemove h e : pres mid (on_mousemove h e).
Proof. unfold on_mousemove. mid_go. Qed.

Lemma mid_on_mouseout : pres mid on_mouseout.
Proof. unfold on_mouseout. mid_go. Qed.

Lemma mid_on_load h : pres mid (on_load h).
Proof. unfold on_load. mid_go. Qed.

Lemma live_frame w w' :
  runs w' = runs w -> visible w' = visible w -> base w' = base w ->
  live w -> live w'.
Proof. unfold live. by intros -> -> ->. Qed.

Lemma live_upd_map h f :
  (forall m, m_style (f m) = m_style m) ->
  (forall m, m_layers (f m) = m_layers m) ->
  pres live (upd_map h f).
Proof.
  intros Hs Hl w Hw j r. simpl. rewrite length_alter. revert j r.
  apply (lookup_alter_ind
           (fun j r => S j = length (runs w) ->
                       live_ok (visible w) (base w) r)); [done|].
  intros r _ Hr Hj. destruct (Hr Hj) as (H1 & H2 & H3).
  unfold live_ok, shows. simpl. by rewrite Hs, Hl.
Qed.

Lemma live_upd_load h s : s <> Composed -> pres live (upd_run h (with_load s)).
Proof.
  intros Hs w Hw j r. simpl. rewrite length_alter. revert j r.
  apply (lookup_alter_ind
           (fun j r => S j = length (runs w) ->
                       live_ok (visible w) (base w) r)); [done|].
  intros r _ Hr Hj. destruct (Hr Hj) as (H1 & H2 & H3).
  by repeat split.
Qed.

Lemma live_upd_popup p f : pres live (upd_popup p f).
Proof. intros w. by apply live_frame. Qed.

Lemma live_log c : pres live (log c).
Proof. intros w. by apply live_frame. Qed.

Ltac live_go :=
  unfold addControl, on, addSource, setLayoutProperty, getLayer,
    queryRenderedFeatures, setCursor, fetch, popupRemove, popupSetLngLat,
    popupSetHTML, popupAddTo;
  repeat lazymatch goal with
    | |- pres _ (upd_run _ (with_load _)) => apply live_upd_load; done
    | |- pres _ (log _) => apply live_log
    | |- pres _ (upd_popup _ _) => apply live_upd_popup
    | |- pres _ (upd_map _ _) => apply live_upd_map; intros ?; reflexivity
    | |- _ => pres_struct
    end.

Lemma pres_inv2 {A} (c : M A) : pres mid c -> pres live c -> pres inv2 c.
Proof. intros Hm Hl w [? ?]. split; [by apply Hm|by apply Hl]. Qed.

Lemma inv2_on_mousemove h e : pres inv2 (on_mousemove h e).
Proof.
  apply pres_inv2; [apply mid_on_mousemove|]. unfold on_mousemove. live_go.
Qed.

Lemma inv2_on_mouseout : pres inv2 on_mouseout.
Proof.
  apply pres_inv2; [apply mid_on_mouseout|]. unfold on_mouseout. live_go.
Qed.

Lemma inv2_on_load h : pres inv2 (on_load h).
Proof. apply pres_inv2; [apply mid_on_load|]. unfold on_load. live_go. Qed.

Lemma cleanup_removes_all (rs : list EffectRun) h :
  length rs = S h ->
  (forall j r, rs !! j = Some r ->
     (m_removed (r_map r) = false <-> S j = length rs)) ->
  forall j r, alter (with_map (with_removed true)) h rs !! j = Some r ->
    m_removed (r_map r) = true.
Proof.
  intros Hl H1 j r. rewrite list_lookup_alter. case_decide as Hj.
  - subst j. destruct (rs !! h); [|done]. by intros [= <-].
  - intros Hr. destruct (m_removed (r_map r)) eqn:E; [done|].
    apply (H1 j r Hr) in E. lia.
Qed.

(** Re-running the effect: the current map is removed and the new one is
    made from the state cells. *)
Lemma rerun_effect_inv2 h w :
  current h w -> mid w ->
  wp rerun_effect w (fun _ w' => inv2 w').
Proof.
  intros (Hm & Hc & Hk & Hl) [H1 H2 H3].
  unfold rerun_effect, run_cleanup, effect. repeat wp_prim.
  rewrite Hc. wp_run. rewrite Hk. simpl negb. cbv iota. wp_run.
  rewrite alter_snoc, ?length_alter.
  split; [split|]; simpl.
  - intros j r. rewrite length_app, length_alter. simpl.
    intros [[Hj Hr]|[-> <-]]%lookup_snoc_Some.
    + rewrite length_alter in Hj.
      rewrite (cleanup_removes_all _ _ Hl H1 _ _ Hr). split; [done|lia].
    + rewrite length_alter. simpl. split; [lia|done].
  - intros j r [[Hj Hr]|[-> <-]]%lookup_snoc_Some; [|by intros ?].
    clear Hj. revert j r Hr.
    apply (lookup_alter_ind (fun _ r => settled r)); [done|].
    by intros r _.
  - unfold newest_popup in *. simpl. destruct (popupRef w).
    + by rewrite length_fmap.
    + by rewrite H3.
  - unfold live. simpl. intros j r. rewrite length_app, length_alter. simpl.
    intros [[Hj Hr]|[-> <-]]%lookup_snoc_Some Hlen.
    + rewrite length_alter in Hj. lia.
    + by repeat split.
Qed.

Lemma inv2_uncaught e w : inv2 w -> inv2 (set_uncaught e w).
Proof.
  intros [Hm Hl]. split; [by apply (mid_frame w)|by apply (live_frame w)].
Qed.

Lemma toggle_inv2 key w : inv w -> inv2 w -> inv2 (step (EvToggle key) w).
Proof.
  intros Hi [Hmid _]. destruct (inv_current w Hi) as (h & Hl & Hm & Hc).
  unfold step. apply wp_settle. simpl. unfold toggle. do 3 wp_prim.
  eapply (wp_pres_returns _ _ (fun w' => current h w' /\ mid w'));
    [apply pres_and; [apply toggle_updater_current|apply mid_toggle_updater]
    |apply toggle_updater_returns
    |split; [by repeat split; try apply Hi|exact Hmid]|].
  intros w1 [Hc1 Hm1]. cbv beta iota. repeat wp_prim.
  eapply wp_mono.
  - apply (rerun_effect_inv2 h); [exact Hc1|by apply (mid_frame w1)].
  - intros [] w2 Hw2; [done|by apply inv2_uncaught].
Qed.

Lemma setBase_inv2 k w : inv w -> inv2 w -> inv2 (step (EvSetBase k) w).
Proof.
  intros Hi Hw. destruct (inv_current w Hi) as (h & Hl & Hm & Hc).
  unfold step. apply wp_settle. simpl. unfold setBase. repeat wp_prim.
  case_decide; repeat wp_prim; [done|].
  eapply wp_mono.
  - apply (rerun_effect_inv2 h).
    + repeat split; try done. apply Hi.
    + apply (mid_frame w); try done. apply Hw.
  - intros [] w2 Hw2; [done|by apply inv2_uncaught].
Qed.

(** ** What a composition leaves *)

Lemma alter_to_insert {A} (f : A -> A) i (l : list A) x :
  l !! i = Some x -> alter f i l = <[i := f x]> l.
Proof.
  intros Hx. rewrite list_insert_alter. apply list_alter_ext; [|done].
  intros y Hy. by simplify_eq.
Qed.

Lemma compose_result h r deps coms secs w :
  runs w !! h = Some r -> r_load r = AwaitSecs deps coms -> inv w ->
  wp (resume h r (Some secs)) w (fun res w' =>
    res = Ret tt
    /\ runs w' = <[h := composed_run r deps coms secs]> (runs w)
    /\ popups w' = popups w ++ [{| p_map := None; p_lnglat := None;
                                  p_html := EmptyString |}]
    /\ popupRef w' = Some (length (popups w))
    /\ visible w' = visible w /\ base w' = base w /\ mapRef w' = mapRef w
    /\ cleanup w' = cleanup w /\ containerRef w' = containerRef w
    /\ uncaught w' = uncaught w).
Proof.
  intros Hh Hl Hw.
  assert (Hr : run_ok r) by (eapply Forall_lookup_1; [apply Hw|done]).
  destruct Hr as [Hk Hu]. rewrite Hl in Hu.
  unfold resume. rewrite Hl. unfold compose, apply. rewrite Hk.
  cbn [key_names all_keys key_name fmap list_fmap forEach].
  change (apply_ids "departments")
    with ["departments-fill"; "departments-outline"].
  change (apply_ids "communes") with ["communes-outline"].
  change (apply_ids "sections") with ["sections-fill"; "sections-outline"].
  cbn [forEach].
  wp_run. split; [done|]. split; [|done].
  rewrite !alter_alter. rewrite (alter_to_insert _ _ _ _ Hh). f_equal.
  destruct r as [[st rm so la cu li] v l]. unfold unloaded in Hu.
  simpl in *. destruct Hu as (-> & -> & ->). reflexivity.
Qed.

Lemma shows_composed v m : m_layers m = composed_layers v -> shows v m.
Proof.
  intros Hm k l. rewrite Hm. simpl.
  intros [<-|[<-|[<-|[<-|[<-|[]]]]]]; destruct k; simpl; try done.
  all: by intros [?|[?|[]]] || by intros [?|[]].
Qed.

Lemma lookup_insert_ind {A} (P : nat -> A -> Prop) i (l : list A) x :
  (forall j y, l !! j = Some y -> P j y) -> P i x ->
  forall j y, <[i := x]> l !! j = Some y -> P j y.
Proof.
  intros Hl Hx j y. destruct (decide (i = j)) as [<-|Hne].
  - destruct (decide (i < length l)).
    + rewrite list_lookup_insert_eq by done. by intros [= <-].
    + rewrite list_insert_ge by lia. auto.
  - rewrite list_lookup_insert_ne by done. auto.
Qed.

Lemma resume_inv2 h r res w :
  runs w !! h = Some r -> inv w -> inv2 w ->
  wp (resume h r res) w (fun _ w' => inv2 w').
Proof.
  intros Hh Hi Hw.
  destruct (r_load r) eqn:Hl, res as [data|];
    try (unfold resume; rewrite Hl; exact Hw).
  all: try solve [ revert w Hw Hh Hi; unfold resume; rewrite Hl;
                   intros w Hw _ _; revert w Hw;
                   apply pres_inv2; [mid_go|live_go] ].
  eapply wp_mono; [by apply compose_result|].
  intros res w' (_ & Hr & Hp & Hq & Hv & Hb & _).
  destruct Hw as [[H1 H2 H3] H4]. split; [split|].
  - rewrite Hr, length_insert.
    apply (lookup_insert_ind
             (fun j r => m_removed (r_map r) = false <-> S j = length (runs w)));
      [done|]. simpl. by apply H1.
  - rewrite Hr. apply (lookup_insert_ind (fun _ r => settled r)); [done|].
    by intros _.
  - unfold newest_popup. rewrite Hq, Hp, length_app. simpl. lia.
  - unfold live. rewrite Hr, Hv, Hb, length_insert.
    apply (lookup_insert_ind
             (fun j r => S j = length (runs w) ->
                         live_ok (visible w) (base w) r)); [done|].
    intros Hj. destruct (H4 h r Hh Hj) as (Hs & Hvis & _).
    unfold live_ok. simpl. split; [done|]. split; [done|]. intros _.
    rewrite <- Hvis. by apply shows_composed.
Qed.

Lemma step_inv2 ev w : inv w -> inv2 w -> inv2 (step ev w).
Proof.
  intros Hi Hw. destruct ev as [key|k|h|h res|h e|h].
  - by apply toggle_inv2.
  - by apply setBase_inv2.
  - unfold step. apply wp_settle. simpl.
    destruct (listening h "load" w && not_fired h w); [|done].
    eapply wp_pres; [apply inv2_on_load|done|].
    intros [] w' Hw'; [done|by apply inv2_uncaught].
  - unfold step. apply wp_settle. simpl.
    destruct (runs w !! h) as [r|] eqn:Hh; [|done].
    eapply wp_mono; [by apply resume_inv2|].
    intros [] w' Hw'; [done|by apply inv2_uncaught].
  - unfold step. apply wp_settle. simpl.
    destruct (listening h "mousemove" w); [|done].
    eapply wp_pres; [apply inv2_on_mousemove|done|].
    intros [] w' Hw'; [done|by apply inv2_uncaught].
  - unfold step. apply wp_settle. simpl.
    destruct (listening h "mouseout" w); [|done].
    eapply wp_pres; [apply inv2_on_mouseout|done|].
    intros [] w' Hw'; [done|by apply inv2_uncaught].
Qed.

Lemma mounted_inv2 : inv2 mounted.
Proof.
  split; [split|].
  - intros [|[|j]] r; [|done..]. intros [= <-]. by simpl.
  - intros [|[|j]] r; [|done..]. by intros [= <-].
  - done.
  - intros [|[|j]] r; [|done..]. by intros [= <-].
Qed.

Lemma reachable_inv2 w : reachable w -> inv2 w.
Proof.
  induction 1 as [|w ev Hw IH]; [apply mounted_inv2|].
  apply step_inv2; [by apply reachable_inv|done].
Qed.

Lemma live_map_is_not_removed w h m :
  reachable w -> mapRef w = Some h -> map_of h w = Some m ->
  m_removed m = false.
Proof.
  intros Hw Hm. unfold map_of.
  destruct (runs w !! h) as [r|] eqn:Hr; [|done]. intros [= <-].
  pose proof (reachable_inv2 w Hw) as [[H1 _ _] _].
  destruct (inv_current w (reachable_inv w Hw)) as (h' & Hl & Hm' & _).
  assert (h' = h) as -> by congruence. by apply (H1 h r).
Qed.

(** X1: in every reachable state exactly one map is not removed: the map
    [mapRef] designates exists and is not removed, it is also the one the
    pending cleanup will remove, and every other map is removed. *)
Theorem one_live_map (w : World) :
  reachable w ->
  exists h r, mapRef w = Some h /\ cleanup w = Some h
    /\ runs w !! h = Some r /\ m_removed (r_map r) = false
    /\ forall j r', runs w !! j = Some r' ->
         (m_removed (r_map r') = false <-> j = h).
Proof.
  intros Hw. pose proof (reachable_inv w Hw) as Hi.
  pose proof (reachable_inv2 w Hw) as [[Hr _ _] _].
  destruct (inv_current w Hi) as (h & Hl & Hm & Hc).
  destruct (lookup_lt_is_Some_2 (runs w) h) as [r Hh]; [lia|].
  exists h, r. repeat split; try done.
  - by apply (Hr h r).
  - intros Hf. apply (Hr j r') in Hf; [lia|done].
  - intros ->. by apply (Hr h r').
Qed.

Lemma restyled_reachable : reachable restyled.
Proof. apply reachable_steps, reach_mounted. Qed.

Lemma recomposed_reachable : reachable recomposed.
Proof. apply reachable_steps, reach_mounted. Qed.

Lemma one_live_map_witness :
  reachable restyled
  /\ exists h r, mapRef restyled = Some h /\ cleanup restyled = Some h
       /\ runs restyled !! h = Some r /\ m_removed (r_map r) = false
       /\ forall j r', runs restyled !! j = Some r' ->
            (m_removed (r_map r') = false <-> j = h).
Proof.
  split; [exact restyled_reachable|].
  apply (one_live_map restyled restyled_reachable).
Defined.

(** X2: in every reachable state the live map was created with the style
    of the stored basemap key. *)
Theorem live_map_has_the_stored_style (w : World) (h : nat) (m : MapObj) :
  reachable w ->
  mapRef w = Some h ->
  map_of h w = Some m ->
  m_style m = STYLES (base w) /\ m_removed m = false.
Proof.
  intros Hw Hm. unfold map_of.
  destruct (runs w !! h) as [r|] eqn:Hr; [|done]. intros [= <-].
  pose proof (reachable_inv w Hw) as Hi.
  pose proof (reachable_inv2 w Hw) as [[H1 _ _] H2].
  destruct (inv_current w Hi) as (h' & Hl & Hm' & _).
  assert (h' = h) as -> by congruence.
  split; [by apply (H2 h r)|by apply (H1 h r)].
Qed.

Lemma live_map_has_the_stored_style_witness :
  exists m, map_of 2 restyled = Some m
    /\ m_style m = STYLES (base restyled) /\ m_removed m = false.
Proof.
  eexists. split; [vm_compute; reflexivity|].
  refine (live_map_has_the_stored_style restyled 2 _ restyled_reachable _ _).
  - vm_compute. reflexivity.
  - vm_compute. reflexivity.
Defined.

(** X3: in every reachable state, once the live map is composed, each of
    its layers is shown exactly when the stored flag of its LogicalLayer is
    true. *)
Theorem live_map_shows_stored_visibility (w : World) (h : nat) (m : MapObj)
    (k : LayerKey) (b : bool) (l : SurfaceLayer) :
  reachable w ->
  mapRef w = Some h ->
  map_of h w = Some m ->
  load_of h w = Some Composed ->
  stored w k = Some b ->
  In l (m_layers m) ->
  In (l_id l) (apply_ids (key_name k)) ->
  l_visibility l = vis b /\ shown l = b.
Proof.
  intros Hw Hm. unfold map_of, load_of, stored.
  destruct (runs w !! h) as [r|] eqn:Hr; [|done]. simpl.
  intros [= <-] [= Hl] Hb Hin Hid.
  pose proof (reachable_inv w Hw) as Hi.
  pose proof (reachable_inv2 w Hw) as [_ H2].
  destruct (inv_current w Hi) as (h' & Hlen & Hm' & _).
  assert (h' = h) as -> by congruence.
  destruct (H2 h r Hr (eq_sym Hlen)) as (_ & _ & Hs).
  pose proof (Hs Hl k l Hin Hid) as Hv. rewrite Hb in Hv. simpl in Hv.
  split; [done|]. unfold shown. rewrite Hv. by destruct b.
Qed.

Lemma live_map_shows_stored_visibility_witness :
  l_visibility communes_outline_visible = vis true
  /\ shown communes_outline_visible = true.
Proof.
  refine (live_map_shows_stored_visibility recomposed 1 _ communes true
            communes_outline_visible recomposed_reachable _ _ _ _ _ _).
  - vm_compute. reflexivity.
  - vm_compute. reflexivity.
  - vm_compute. reflexivity.
  - vm_compute. reflexivity.
  - vm_compute. auto 10.
  - vm_compute. auto.
Defined.

(** X4: in every reachable state the live map, once composed, has the five
    layers with the id, type, source and paint written in the source, in
    that order, and the source of each layer is registered on it. *)
Theorem composed_map_keeps_the_catalog (w : World) (h : nat) (m : MapObj) :
  reachable w ->
  mapRef w = Some h ->
  map_of h w = Some m ->
  load_of h w = Some Composed ->
  m_removed m = false
  /\ descriptors m = catalog
  /\ forall l, In l (m_layers m) -> In (l_source l) (source_names m).
Proof.
  intros Hw Href Hmap Hload.
  split; [by apply (live_map_is_not_removed w h m)|]. revert Hmap Hload.
  unfold map_of, load_of.
  destruct (runs w !! h) as [r|] eqn:Hr; [|done]. simpl.
  intros [= <-] [= Hl].
  pose proof (reachable_inv2 w Hw) as [[_ H2 _] _].
  pose proof (inv_runs w (reachable_inv w Hw)) as Hruns.
  destruct (Forall_lookup_1 _ _ _ _ Hruns Hr) as [_ Hm]. rewrite Hl in Hm.
  destruct Hm as (Hs & _ & _).
  pose proof (H2 h r Hr Hl) as Hd. split; [done|].
  intros l Hin. rewrite Hs.
  assert (Hdl : In (descriptor l) (descriptors (r_map r))) by by apply in_map.
  rewrite Hd in Hdl. unfold descriptor in Hdl. simpl in Hdl.
  destruct Hdl as [Hx|[Hx|[Hx|[Hx|[Hx|[]]]]]]; injection Hx as _ _ <- _;
    simpl; auto.
Qed.

Lemma composed_map_keeps_the_catalog_witness :
  exists m, map_of 1 recomposed = Some m
    /\ m_removed m = false
    /\ descriptors m = catalog
    /\ forall l, In l (m_layers m) -> In (l_source l) (source_names m).
Proof.
  eexists. split; [vm_compute; reflexivity|].
  refine (composed_map_keeps_the_catalog recomposed 1 _ recomposed_reachable
            _ _ _).
  - vm_compute. reflexivity.
  - vm_compute. reflexivity.
  - vm_compute. reflexivity.
Defined.

(** ** The state cells *)

Lemma obj_get_set_ne o k k' v :
  k <> k' -> obj_get (obj_set o k v) k' = obj_get o k'.
Proof.
  intros Hne. induction o as [|[k0 v0] o IH]; simpl.
  - by destruct (String.eqb_spec k k').
  - destruct (String.eqb_spec k0 k) as [->|]; simpl.
    + by destruct (String.eqb_spec k k').
    + by rewrite IH.
Qed.

Lemma key_name_inj k k' : key_name k = key_name k' -> k = k'.
Proof. by destruct k, k'. Qed.

Lemma rerun_effect_base b : pres (fun w => base w = b) rerun_effect.
Proof. unfold_handlers. pres_go; done. Qed.

Lemma step_base ev w :
  base (step ev w) = match ev with EvSetBase k => k | _ => base w end.
Proof.
  unfold step. apply wp_settle.
  destruct ev as [key|k|h|h res|h e|h]; simpl.
  - eapply (wp_pres _ (fun w' => base w' = base w)); [|done|by intros []].
    unfold_handlers. pres_go; done.
  - unfold setBase. repeat wp_prim. case_decide; repeat wp_prim; [done|].
    eapply wp_pres; [apply (rerun_effect_base k)|done|by intros []].
  - eapply (wp_pres _ (fun w' => base w' = base w)); [|done|by intros []].
    unfold_handlers. pres_go; done.
  - eapply (wp_pres _ (fun w' => base w' = base w)); [|done|by intros []].
    destruct (runs w !! h) as [r|]; [|apply pres_ret].
    unfold resume. destruct (r_load r), res; unfold_handlers; pres_go; done.
  - eapply (wp_pres _ (fun w' => base w' = base w)); [|done|by intros []].
    unfold_handlers. pres_go; done.
  - eapply (wp_pres _ (fun w' => base w' = base w)); [|done|by intros []].
    unfold_handlers. pres_go; done.
Qed.

(** X5: the two state cells change only through their own setters:
    [visible] only by a toggle, which rewrites the one property of its key,
    and [base] only by [setBase]; load, fetch and pointer events leave both
    alone. *)
Theorem state_cells_change_only_by_their_setters (ev : Event) (w : World) :
  visible (step ev w)
  = match ev with
    | EvToggle key =>
        obj_set (visible w) (key_name key)
          (js_not (obj_get (visible w) (key_name key)))
    | _ => visible w
    end
  /\ base (step ev w) = match ev with EvSetBase k => k | _ => base w end.
Proof.
  split; [|apply step_base].
  destruct ev; try (by apply other_events_visible). apply toggle_visible.
Qed.

Lemma toggle_flag_effect k w b :
  stored w k = Some b ->
  stored (step (EvToggle k) w) k = Some (negb b)
  /\ (forall k', k' <> k -> stored (step (EvToggle k) w) k' = stored w k').
Proof.
  unfold stored. intros Hb. rewrite toggle_visible.
  assert (Hn : obj_get (visible w) (key_name k) <> None) by by rewrite Hb.
  split.
  - rewrite obj_get_set by done. by rewrite Hb.
  - intros k' Hne. apply obj_get_set_ne. intros Heq.
    by apply Hne, eq_sym, key_name_inj.
Qed.

(** X6: a toggle negates the stored flag of its key and leaves the flags
    of the other keys, and the order of the properties, as they were. *)
Theorem toggle_flips_one_flag (k : LayerKey) (w : World) (b : bool) :
  stored w k = Some b ->
  stored (step (EvToggle k) w) k = Some (negb b)
  /\ (forall k', k' <> k -> stored (step (EvToggle k) w) k' = stored w k')
  /\ obj_keys (visible (step (EvToggle k) w)) = obj_keys (visible w).
Proof.
  intros Hb. destruct (toggle_flag_effect k w b Hb) as [H1 H2].
  split; [done|]. split; [done|].
  rewrite toggle_visible. apply obj_keys_set. unfold stored in Hb.
  by rewrite Hb.
Qed.

Lemma toggle_flips_one_flag_witness :
  stored mounted sections = Some true
  /\ stored (step (EvToggle sections) mounted) sections = Some (negb true)
  /\ (forall k', k' <> sections ->
        stored (step (EvToggle sections) mounted) k' = stored mounted k')
  /\ obj_keys (visible (step (EvToggle sections) mounted))
     = obj_keys (visible mounted).
Proof.
  split; [reflexivity|].
  apply (toggle_flips_one_flag sections mounted true). reflexivity.
Defined.

(** ** Replacing the map *)

Lemma rerun_effect_result h w :
  current h w ->
  wp rerun_effect w (fun res w' =>
    res = Ret tt
    /\ runs w'
       = alter (with_map (with_removed true)) h (runs w)
         ++ [{| r_map := with_on ["load"] (fresh_map (STYLES (base w)));
                r_visible := visible w; r_load := NotFired |}]
    /\ mapRef w' = Some (S h) /\ cleanup w' = Some (S h)
    /\ visible w' = visible w /\ base w' = base w
    /\ popupRef w' = popupRef w
    /\ calls w'
       = calls w ++ [CRemove h; CNewMap (S h) (STYLES (base w));
                     CAddControl (S h) "NavigationControl" (Some "top-right");
                     CAddControl (S h) "ScaleControl" None;
                     COn (S h) "load"]).
Proof.
  intros (Hm & Hc & Hk & Hl).
  unfold rerun_effect, run_cleanup, effect. repeat wp_prim.
  rewrite Hc. wp_run. rewrite Hk. simpl negb. cbv iota. wp_run.
  rewrite alter_snoc, ?length_alter, Hl, <- !app_assoc. by repeat split.
Qed.

(** X7: choosing the basemap already shown changes nothing; choosing the
    other one removes the live map and creates a new one with the style of
    the chosen key, not yet loaded and without layers, whose closures hold
    the unchanged visibility object. *)
Theorem setBase_replaces_the_map (k : StyleKey) (w : World) :
  reachable w ->
  (k = base w -> step (EvSetBase k) w = w)
  /\ (k <> base w ->
      exists h r, mapRef w = Some h /\ runs w !! h = Some r
        /\ runs (step (EvSetBase k) w)
           = <[h := with_map (with_removed true) r]> (runs w)
             ++ [{| r_map := with_on ["load"] (fresh_map (STYLES k));
                    r_visible := visible w; r_load := NotFired |}]
        /\ mapRef (step (EvSetBase k) w) = Some (S h)
        /\ base (step (EvSetBase k) w) = k
        /\ visible (step (EvSetBase k) w) = visible w
        /\ issued (handler_of (EvSetBase k) w) w
           = [CRemove h; CNewMap (S h) (STYLES k);
              CAddControl (S h) "NavigationControl" (Some "top-right");
              CAddControl (S h) "ScaleControl" None; COn (S h) "load"]).
Proof.
  intros Hw. split; [intros ->; apply setBase_same|]. intros Hne.
  pose proof (reachable_inv w Hw) as Hi.
  destruct (inv_current w Hi) as (h & Hl & Hm & Hc).
  destruct (lookup_lt_is_Some_2 (runs w) h) as [r Hr]; [lia|].
  assert (Hcur : current h (set_base k w))
    by (repeat split; try done; apply Hi).
  pose proof (rerun_effect_result h (set_base k w) Hcur) as He.
  unfold wp in He. simpl in He.
  destruct He as (Hret & Hruns & Hmap & _ & Hvis & Hbase & _ & Hcalls).
  assert (Hs : handler_of (EvSetBase k) w w = rerun_effect (set_base k w)).
  { simpl. unfold setBase, bind at 1, gets. rewrite decide_False by done.
    reflexivity. }
  exists h, r. split; [done|]. split; [done|].
  rewrite <- (alter_to_insert _ _ _ _ Hr).
  unfold step, settle, issued, exec. rewrite Hs.
  destruct (rerun_effect (set_base k w)) as [res w']. simpl in *. subst res.
  rewrite Hcalls, drop_app_length. by repeat split.
Qed.

Lemma setBase_replaces_the_map_witness :
  (dark = base ready -> step (EvSetBase dark) ready = ready)
  /\ (dark <> base ready ->
      exists h r, mapRef ready = Some h /\ runs ready !! h = Some r
        /\ runs (step (EvSetBase dark) ready)
           = <[h := with_map (with_removed true) r]> (runs ready)
             ++ [{| r_map := with_on ["load"] (fresh_map (STYLES dark));
                    r_visible := visible ready; r_load := NotFired |}]
        /\ mapRef (step (EvSetBase dark) ready) = Some (S h)
        /\ base (step (EvSetBase dark) ready) = dark
        /\ visible (step (EvSetBase dark) ready) = visible ready
        /\ issued (handler_of (EvSetBase dark) ready) ready
           = [CRemove h; CNewMap (S h) (STYLES dark);
              CAddControl (S h) "NavigationControl" (Some "top-right");
              CAddControl (S h) "ScaleControl" None; COn (S h) "load"]).
Proof. apply (setBase_replaces_the_map dark ready ready_reachable). Defined.

Lemma flags_alter_with_map f j (l : list EffectRun) :
  (forall m, m_removed (f m) = m_removed m) ->
  (m_removed ∘ r_map) <$> alter (with_map f) j l = (m_removed ∘ r_map) <$> l.
Proof.
  intros Hf. rewrite (list_fmap_alter _ _ id).
  - by apply list_alter_id.
  - apply Forall_forall. intros r _. simpl. by rewrite Hf.
Qed.

Lemma flags_alter_with_load s j (l : list EffectRun) :
  (m_removed ∘ r_map) <$> alter (with_load s) j l = (m_removed ∘ r_map) <$> l.
Proof.
  rewrite (list_fmap_alter _ _ id).
  - by apply list_alter_id.
  - by apply Forall_forall.
Qed.

Ltac maps_frame :=
  world_norm;
  rewrite ?flags_alter_with_load;
  rewrite ?flags_alter_with_map by (intros ?; reflexivity);
  try done.

(** X8: load, fetch and pointer events never create, remove or replace a
    map: [mapRef], the pending cleanup and the removed flag of every map
    stay as they were. *)
Theorem other_events_keep_the_maps (ev : Event) (w : World) :
  (forall key, ev <> EvToggle key) ->
  (forall k, ev <> EvSetBase k) ->
  mapRef (step ev w) = mapRef w
  /\ cleanup (step ev w) = cleanup w
  /\ (m_removed ∘ r_map) <$> runs (step ev w) = (m_removed ∘ r_map) <$> runs w.
Proof.
  intros Ht Hb. unfold step. apply wp_settle.
  eapply (wp_pres _ (fun w' =>
            mapRef w' = mapRef w /\ cleanup w' = cleanup w
            /\ (m_removed ∘ r_map) <$> runs w'
               = (m_removed ∘ r_map) <$> runs w));
    [|done|by intros []].
  destruct ev as [key|k|h|h res|h e|h]; simpl.
  - by destruct (Ht key).
  - by destruct (Hb k).
  - unfold_handlers. pres_go; maps_frame.
  - destruct (runs w !! h) as [r|]; [|apply pres_ret].
    unfold resume. destruct (r_load r), res; unfold_handlers; pres_go;
      maps_frame.
  - unfold_handlers. pres_go; maps_frame.
  - unfold_handlers. pres_go; maps_frame.
Qed.

Lemma other_events_keep_the_maps_witness :
  let w := steps [EvLoad 0; EvSetBase dark; EvFetch 0 (Some sample);
                  EvFetch 0 (Some sample)] mounted in
  mapRef (step (EvFetch 0 (Some sample)) w) = mapRef w
  /\ cleanup (step (EvFetch 0 (Some sample)) w) = cleanup w
  /\ (m_removed ∘ r_map) <$> runs (step (EvFetch 0 (Some sample)) w)
     = (m_removed ∘ r_map) <$> runs w.
Proof.
  apply (other_events_keep_the_maps (EvFetch 0 (Some sample))); done.
Defined.

(** ** The load handler from start to end *)

Lemma load_step h r w :
  runs w !! h = Some r -> listening h "load" w = true -> r_load r = NotFired ->
  runs (step (EvLoad h) w) = <[h := with_load AwaitDeps r]> (runs w)
  /\ issued (handler_of (EvLoad h) w) w = [CFetch url_departments].
Proof.
  intros Hr Hl Hn. unfold step, issued, exec. simpl. rewrite Hl.
  unfold not_fired, load_of. rewrite Hr. simpl. rewrite Hn. simpl.
  rewrite drop_app_length. split; [|done]. by apply alter_to_insert.
Qed.

Lemma fetch_step h r res w :
  runs w !! h = Some r ->
  match r_load r, res with
  | AwaitDeps, Some deps =>
      runs (step (EvFetch h res) w)
      = <[h := with_load (AwaitComs deps) r]> (runs w)
      /\ issued (handler_of (EvFetch h res) w) w = [CFetch url_communes]
  | AwaitComs deps, Some coms =>
      runs (step (EvFetch h res) w)
      = <[h := with_load (AwaitSecs deps coms) r]> (runs w)
      /\ issued (handler_of (EvFetch h res) w) w = [CFetch url_sections]
  | _, _ => True
  end.
Proof.
  intros Hr. destruct (r_load r) eqn:Hl, res as [data|]; try done.
  all: unfold step, issued, exec; simpl; rewrite Hr; unfold resume;
    rewrite Hl; simpl; rewrite drop_app_length; split; [|done];
    by apply alter_to_insert.
Qed.

Lemma compose_step h r deps coms secs w :
  inv w -> runs w !! h = Some r -> r_load r = AwaitSecs deps coms ->
  let w' := step (EvFetch h (Some secs)) w in
  runs w' = <[h := composed_run r deps coms secs]> (runs w)
  /\ popups w' = popups w ++ [{| p_map := None; p_lnglat := None;
                                p_html := EmptyString |}]
  /\ popupRef w' = Some (length (popups w))
  /\ uncaught w' = uncaught w.
Proof.
  intros Hi Hr Hl. pose proof (compose_result h r deps coms secs w Hr Hl Hi) as H.
  unfold wp in H. unfold step. simpl. rewrite Hr. unfold settle.
  destruct (resume h r (Some secs) w) as [res w']. simpl in H.
  destruct H as (-> & H1 & H2 & H3 & _ & _ & _ & _ & _ & H4). done.
Qed.

(** X9: when ["load"] fires on a map and its three fetches resolve in turn,
    the map ends composed: each source holds the data of its own fetch, the
    five layers are those of the catalog with the visibility of the
    captured flags, and the two hover listeners are registered; the
    fetches were issued one after the other, departments, communes,
    sections. *)
Theorem load_composes_the_fetched_data (w : World) (h : nat) (r : EffectRun)
    (deps coms secs : GeoJSON) :
  reachable w ->
  runs w !! h = Some r ->
  listening h "load" w = true ->
  r_load r = NotFired ->
  let w1 := step (EvLoad h) w in
  let w2 := step (EvFetch h (Some deps)) w1 in
  let w3 := step (EvFetch h (Some coms)) w2 in
  let w4 := step (EvFetch h (Some secs)) w3 in
  runs w4 = <[h := composed_run r deps coms secs]> (runs w)
  /\ issued (handler_of (EvLoad h) w) w = [CFetch url_departments]
  /\ issued (handler_of (EvFetch h (Some deps)) w1) w1 = [CFetch url_communes]
  /\ issued (handler_of (EvFetch h (Some coms)) w2) w2 = [CFetch url_sections].
Proof.
  intros Hw Hr Hl Hn w1 w2 w3 w4.
  assert (Hlt : h < length (runs w)) by by eapply lookup_lt_Some.
  destruct (load_step h r w Hr Hl Hn) as [H1 C1].
  assert (Hr1 : runs w1 !! h = Some (with_load AwaitDeps r)).
  { unfold w1. rewrite H1. by apply list_lookup_insert_eq. }
  pose proof (fetch_step h _ (Some deps) w1 Hr1) as [H2 C2].
  assert (Hr2 : runs w2 !! h = Some (with_load (AwaitComs deps) r)).
  { unfold w2. rewrite H2. apply list_lookup_insert_eq.
    unfold w1. by rewrite H1, length_insert. }
  pose proof (fetch_step h _ (Some coms) w2 Hr2) as [H3 C3].
  assert (Hr3 : runs w3 !! h = Some (with_load (AwaitSecs deps coms) r)).
  { unfold w3. rewrite H3. apply list_lookup_insert_eq.
    unfold w2. rewrite H2. unfold w1. by rewrite H1, !length_insert. }
  assert (Hi3 : inv w3) by (apply reachable_inv; by do 3 apply reach_step).
  destruct (compose_step h _ deps coms secs w3 Hi3 Hr3 eq_refl) as (H4 & _).
  split; [|done]. unfold w4. rewrite H4. unfold w3. rewrite H3.
  unfold w2. rewrite H2. unfold w1. rewrite H1.
  by rewrite !list_insert_insert_eq.
Qed.

Lemma load_composes_the_fetched_data_witness :
  let w1 := step (EvLoad 0) mounted in
  let w2 := step (EvFetch 0 (Some [Some "Ouest"])) w1 in
  let w3 := step (EvFetch 0 (Some [Some "Kenscoff"])) w2 in
  let w4 := step (EvFetch 0 (Some [Some "Turgeau"; None])) w3 in
  runs w4
  = <[0 := composed_run
             {| r_map := with_on ["load"] (fresh_map (STYLES terrain));
                r_visible := visible init; r_load := NotFired |}
             [Some "Ouest"] [Some "Kenscoff"] [Some "Turgeau"; None]]>
      (runs mounted)
  /\ issued (handler_of (EvLoad 0) mounted) mounted = [CFetch url_departments]
  /\ issued (handler_of (EvFetch 0 (Some [Some "Ouest"])) w1) w1
     = [CFetch url_communes]
  /\ issued (handler_of (EvFetch 0 (Some [Some "Kenscoff"])) w2) w2
     = [CFetch url_sections].
Proof.
  apply (load_composes_the_fetched_data mounted 0
           {| r_map := with_on ["load"] (fresh_map (STYLES terrain));
              r_visible := visible init; r_load := NotFired |}
           [Some "Ouest"] [Some "Kenscoff"] [Some "Turgeau"; None]);
    [apply reach_mounted|reflexivity..].
Defined.

(** X10: in every reachable state [popupRef] designates the popup created
    last (none before any popup exists).  Every composition that ends, on a
    live map or on a removed one, creates a popup and points [popupRef] at
    it; the popups that existed, shown or not, are left as they were, and
    the one [popupRef] designated before is no longer designated. *)
Theorem composition_installs_a_new_popup (w : World) :
  reachable w ->
  newest_popup w
  /\ forall h r deps coms secs,
       runs w !! h = Some r ->
       r_load r = AwaitSecs deps coms ->
       popups (step (EvFetch h (Some secs)) w)
       = popups w ++ [{| p_map := None; p_lnglat := None;
                         p_html := EmptyString |}]
       /\ popupRef (step (EvFetch h (Some secs)) w) = Some (length (popups w))
       /\ popupRef (step (EvFetch h (Some secs)) w) <> popupRef w
       /\ newest_popup (step (EvFetch h (Some secs)) w).
Proof.
  intros Hw. pose proof (reachable_inv w Hw) as Hi.
  split; [apply (reachable_inv2 w Hw)|].
  intros h r deps coms secs Hr Hl.
  destruct (compose_step h r deps coms secs w Hi Hr Hl) as (_ & H2 & H3 & _).
  split; [done|]. split; [done|]. split.
  - rewrite H3. intros Heq. symmetry in Heq.
    pose proof (inv_popup w Hi _ Heq). lia.
  - apply (reachable_inv2 _ (reach_step w (EvFetch h (Some secs)) Hw)).
Qed.

Lemma composing_reachable : reachable composing.
Proof. apply reachable_steps, ready_reachable. Qed.

Lemma composition_installs_a_new_popup_witness :
  newest_popup mounted
  /\ newest_popup ready
  /\ popups (step (EvFetch 1 (Some sample)) composing)
     = popups composing ++ [{| p_map := None; p_lnglat := None;
                               p_html := EmptyString |}]
  /\ popupRef (step (EvFetch 1 (Some sample)) composing)
     = Some (length (popups composing))
  /\ popupRef (step (EvFetch 1 (Some sample)) composing) <> popupRef composing
  /\ newest_popup (step (EvFetch 1 (Some sample)) composing).
Proof.
  split; [exact (proj1 (composition_installs_a_new_popup mounted
                          reach_mounted))|].
  split; [exact (proj1 (composition_installs_a_new_popup ready
                          ready_reachable))|].
  refine (proj2 (composition_installs_a_new_popup composing
                   composing_reachable) 1 _ sample sample sample _ _).
  - vm_compute. reflexivity.
  - reflexivity.
Defined.

(** ** Pointer events *)

Lemma hover_listening w h event :
  inv w -> event <> "load" -> listening h event w = true ->
  exists r p, runs w !! h = Some r /\ loaded (r_map r)
    /\ popupRef w = Some p /\ p < length (popups w).
Proof.
  intros Hw Hev. unfold listening.
  destruct (runs w !! h) as [r|] eqn:Hh; [|done].
  intros [_ Hon]%andb_prop.
  destruct (Forall_lookup_1 _ _ _ _ (inv_runs w Hw) Hh) as [_ Hm].
  assert (Hl : r_load r = Composed).
  { destruct (r_load r); try done.
    all: destruct Hm as (_ & _ & Hm); rewrite Hm in Hon; simpl in Hon.
    all: rewrite orb_false_r in Hon; by apply String.eqb_eq in Hon. }
  rewrite Hl in Hm.
  destruct (popupRef w) as [p|] eqn:Hp.
  - exists r, p. repeat split; try done; try apply Hm. by apply (inv_popup w Hw).
  - pose proof (inv_no_popup w Hw Hp) as Hn.
    by destruct (Forall_lookup_1 _ _ _ _ Hn Hh).
Qed.

(** X11: a pointer leaving the map removes the popup and does nothing
    else: no call is made on any map, so the cursor the last pointer move
    set stays, and the text and position of every popup are kept. *)
Theorem mouseout_only_removes_the_popup (w : World) (h : nat) :
  reachable w ->
  listening h "mouseout" w = true ->
  runs (step (EvMouseOut h) w) = runs w
  /\ uncaught (step (EvMouseOut h) w) = uncaught w
  /\ exists p pp,
       popupRef w = Some p
       /\ issued (handler_of (EvMouseOut h) w) w = [CPopupRemove p]
       /\ popups (step (EvMouseOut h) w) !! p = Some pp
       /\ p_map pp = None
       /\ forall q, p_html <$> popups (step (EvMouseOut h) w) !! q
                    = p_html <$> popups w !! q
                    /\ p_lnglat <$> popups (step (EvMouseOut h) w) !! q
                       = p_lnglat <$> popups w !! q.
Proof.
  intros Hw Hl.
  destruct (hover_listening w h "mouseout" (reachable_inv w Hw)) as
    (r & p & Hh & Hload & Hp & Hlt); [done..|].
  destruct (lookup_lt_is_Some_2 (popups w) p Hlt) as [pp0 Hpp].
  assert (Hc : issued (handler_of (EvMouseOut h) w) w = [CPopupRemove p]).
  { simpl. rewrite Hl. apply issued_app. apply wp_exec.
    unfold on_mouseout. wp_run. rewrite Hp. by wp_run. }
  rewrite Hc. unfold step. apply wp_settle. simpl. rewrite Hl.
  unfold on_mouseout. wp_run. rewrite Hp. wp_run.
  split; [done|]. split; [done|].
  exists p. eexists. split; [done|]. split; [done|].
  rewrite list_lookup_alter_eq, Hpp. simpl. split; [done|]. split; [done|].
  intros q. destruct (decide (p = q)) as [->|Hne].
  - rewrite list_lookup_alter_eq. by destruct (popups w !! q).
  - by rewrite list_lookup_alter_ne.
Qed.

Lemma mouseout_only_removes_the_popup_witness :
  let w := step (EvMouseMove 0 over_both) ready in
  runs (step (EvMouseOut 0) w) = runs w
  /\ uncaught (step (EvMouseOut 0) w) = uncaught w
  /\ exists p pp,
       popupRef w = Some p
       /\ issued (handler_of (EvMouseOut 0) w) w = [CPopupRemove p]
       /\ popups (step (EvMouseOut 0) w) !! p = Some pp
       /\ p_map pp = None
       /\ forall q, p_html <$> popups (step (EvMouseOut 0) w) !! q
                    = p_html <$> popups w !! q
                    /\ p_lnglat <$> popups (step (EvMouseOut 0) w) !! q
                       = p_lnglat <$> popups w !! q.
Proof.
  apply (mouseout_only_removes_the_popup
           (step (EvMouseMove 0 over_both) ready) 0).
  - apply reach_step, ready_reachable.
  - vm_compute. reflexivity.
Defined.

(** X12: when the query of a pointer move returns at least one feature,
    the cursor of the map becomes a pointer and the one popup is shown on
    that map at the pointer, labelled with the name of the first feature,
    or with Unnamed when that feature has no name or an empty one; the
    non-null assertion on [popupRef] never fails. *)
Theorem hover_shows_the_first_feature (w : World) (h : nat) (m : MapObj)
    (e : MouseEvent) (f : Feature) (rest : list Feature) :
  reachable w ->
  listening h "mousemove" w = true ->
  map_of h w = Some m ->
  rendered m (e_under e) hoverTargets = f :: rest ->
  m_cursor <$> map_of h (step (EvMouseMove h e) w) = Some "pointer"
  /\ uncaught (step (EvMouseMove h e) w) = uncaught w
  /\ exists p pp,
       popupRef w = Some p
       /\ popups (step (EvMouseMove h e) w) !! p = Some pp
       /\ p_map pp = Some h
       /\ p_lnglat pp = Some (e_lngLat e)
       /\ p_html pp
          = popup_html
              match f_name f with
              | Some s => if String.eqb s EmptyString then "Unnamed" else s
              | None => "Unnamed"
              end.
Proof.
  intros Hw Hl Hm Hf.
  destruct (hover_listener w h (reachable_inv w Hw) Hl)
    as (r & p & Hh & Hload & Hp & Hlt).
  unfold map_of in Hm. rewrite Hh in Hm. injection Hm as <-.
  destruct (lookup_lt_is_Some_2 (popups w) p Hlt) as [pp0 Hpp].
  assert (Hname : display_name f
                  = match f_name f with
                    | Some s => if String.eqb s EmptyString then "Unnamed" else s
                    | None => "Unnamed"
                    end).
  { unfold display_name. by destruct (f_name f) as [[|c s]|]. }
  rewrite <- Hname.
  unfold step. apply wp_settle. simpl. rewrite Hl.
  unfold on_mousemove. wp_run. rewrite Hh, Hf, Hp. wp_run.
  split; [|split; [done|]].
  - unfold map_of. simpl. by rewrite list_lookup_alter_eq, Hh.
  - exists p. eexists. split; [done|].
    rewrite !list_lookup_alter_eq, Hpp. simpl. by repeat split.
Qed.

Lemma hover_shows_the_first_feature_witness :
  exists m,
    map_of 0 ready = Some m
    /\ m_cursor <$> map_of 0 (step (EvMouseMove 0 over_both) ready)
       = Some "pointer"
    /\ uncaught (step (EvMouseMove 0 over_both) ready) = uncaught ready
    /\ exists p pp,
         popupRef ready = Some p
         /\ popups (step (EvMouseMove 0 over_both) ready) !! p = Some pp
         /\ p_map pp = Some 0
         /\ p_lnglat pp = Some (e_lngLat over_both)
         /\ p_html pp
            = popup_html
                match f_name turgeau with
                | Some s => if String.eqb s EmptyString then "Unnamed" else s
                | None => "Unnamed"
                end.
Proof.
  eexists. split; [vm_compute; reflexivity|].
  refine (hover_shows_the_first_feature ready 0 _ over_both turgeau [ouest]
            ready_reachable _ _ _).
  - vm_compute. reflexivity.
  - vm_compute. reflexivity.
  - vm_compute. reflexivity.
Defined.

(** ** The push of [toggle] on a composed map *)

(** X13: on a live composed map, the updater of [toggle] asks for each
    layer of its key and sets its visibility to the negated flag; the
    layers of the other keys, and everything but the visibility of its own,
    are left as they were. *)
Theorem toggle_pushes_to_its_own_layers (w : World) (h : nat) (m : MapObj)
    (key : LayerKey) (b : bool) :
  reachable w ->
  mapRef w = Some h ->
  map_of h w = Some m ->
  load_of h w = Some Composed ->
  stored w key = Some b ->
  m_layers <$> map_of h (exec (toggle_updater key (visible w)) w)
  = Some (pushed (toggle_ids (key_name key)) (vis (negb b)) <$> m_layers m)
  /\ issued (toggle_updater key (visible w)) w
     = flat_map (fun id => [CGetLayer h id;
                            CSetLayoutProperty h id "visibility" (vis (negb b))])
         (toggle_ids (key_name key)).
Proof.
  intros Hw Hm. unfold map_of, load_of, stored.
  destruct (runs w !! h) as [r|] eqn:Hr; [|done]. simpl.
  intros [= <-] [= Hl] Hb.
  pose proof (inv_runs w (reachable_inv w Hw)) as Hruns.
  destruct (Forall_lookup_1 _ _ _ _ Hruns Hr) as [_ Hload].
  rewrite Hl in Hload. destruct Hload as (_ & Hids & _).
  unfold layer_ids in Hids.
  destruct r as [[st rm so la cu li] v ld]. simpl in *.
  destruct la as [|[i1 t1 s1 p1 v1] [|[i2 t2 s2 p2 v2] [|[i3 t3 s3 p3 v3]
    [|[i4 t4 s4 p4 v4] [|[i5 t5 s5 p5 v5] [|]]]]]]; try done.
  injection Hids as -> -> -> -> ->.
  assert (Hn : obj_get (visible w) (key_name key) <> None) by by rewrite Hb.
  assert (Hgo : wp (toggle_updater key (visible w)) w (fun _ w' =>
            m_layers <$> map_of h w'
            = Some (pushed (toggle_ids (key_name key)) (vis (negb b)) <$>
                    [ {| l_id := "departments-fill"; l_type := t1;
                         l_source := s1; l_paint := p1; l_visibility := v1 |};
                      {| l_id := "departments-outline"; l_type := t2;
                         l_source := s2; l_paint := p2; l_visibility := v2 |};
                      {| l_id := "communes-outline"; l_type := t3;
                         l_source := s3; l_paint := p3; l_visibility := v3 |};
                      {| l_id := "sections-fill"; l_type := t4;
                         l_source := s4; l_paint := p4; l_visibility := v4 |};
                      {| l_id := "sections-outline"; l_type := t5;
                         l_source := s5; l_paint := p5; l_visibility := v5 |} ])
            /\ calls w'
               = calls w
                 ++ flat_map (fun id =>
                      [CGetLayer h id;
                       CSetLayoutProperty h id "visibility" (vis (negb b))])
                      (toggle_ids (key_name key)))).
  { unfold toggle_updater. rewrite obj_get_set by done. rewrite Hb.
    simpl js_not. simpl js_truthy. unfold map_of.
    destruct key; cbn [key_name]; unfold push_visibility.
    all: repeat wp_prim; rewrite Hm.
    all: repeat (wp_run; rewrite ?list_lookup_alter_eq, ?Hr; cbn).
    all: rewrite <- ?app_assoc; done. }
  split; [apply Hgo|]. apply issued_app, Hgo.
Qed.

Lemma toggle_pushes_to_its_own_layers_witness :
  exists m,
    map_of 0 ready = Some m
    /\ m_layers <$> map_of 0 (exec (toggle_updater communes (visible ready))
                                ready)
       = Some (pushed (toggle_ids (key_name communes)) (vis (negb false)) <$>
               m_layers m)
    /\ issued (toggle_updater communes (visible ready)) ready
       = flat_map (fun id => [CGetLayer 0 id;
                              CSetLayoutProperty 0 id "visibility"
                                (vis (negb false))])
           (toggle_ids (key_name communes)).
Proof.
  eexists. split; [vm_compute; reflexivity|].
  refine (toggle_pushes_to_its_own_layers ready 0 _ communes false
            ready_reachable _ _ _ _).
  - vm_compute. reflexivity.
  - vm_compute. reflexivity.
  - vm_compute. reflexivity.
  - vm_compute. reflexivity.
Defined.

(** ** What escapes the handlers *)

Lemma wp_nothrow {A} (c : M A) w (P : JsError -> Prop) :
  nothrow c -> wp c w (fun res _ => forall e, res = Throw e -> P e).
Proof. intros Hc. unfold wp. by destruct (Hc w) as [a ->]. Qed.

Lemma setBase_nothrow k : nothrow (setBase k).
Proof. unfold setBase, rerun_effect, run_cleanup, effect. nothrow_go. Qed.

Lemma handler_throws ev w :
  inv w ->
  wp (handler_of ev w) w (fun res _ => forall e, res = Throw e -> fetch_error e).
Proof.
  intros Hi. destruct ev as [key|k|h|h res|h e|h]; simpl.
  - apply wp_nothrow, toggle_nothrow.
  - apply wp_nothrow, setBase_nothrow.
  - apply wp_nothrow. destruct (listening h "load" w && not_fired h w);
      [unfold on_load|]; nothrow_go.
  - destruct (runs w !! h) as [r|] eqn:Hr; [|by apply wp_nothrow, nothrow_ret].
    destruct (r_load r) eqn:Hl, res as [data|].
    all: try (unfold resume; rewrite Hl; apply wp_nothrow; unfold fetch;
              nothrow_go; fail).
    + unfold resume. rewrite Hl. wp_run. intros e [= <-].
      exists url_departments. simpl. auto.
    + unfold resume. rewrite Hl. wp_run. intros e [= <-].
      exists url_communes. simpl. auto.
    + eapply wp_mono; [by apply compose_result|]. by intros ? ? [-> _].
    + unfold resume. rewrite Hl. wp_run. intros e [= <-].
      exists url_sections. simpl. auto.
  - destruct (listening h "mousemove" w) eqn:Hl;
      [|by apply wp_nothrow, nothrow_ret].
    destruct (hover_listener w h Hi Hl) as (r & p & Hh & _ & Hp & _).
    unfold on_mousemove. wp_run. rewrite Hp.
    destruct (match runs w !! h with
              | Some r => rendered (r_map r) (e_under e) hoverTargets
              | None => []
              end); by wp_run.
  - apply wp_nothrow. destruct (listening h "mouseout" w);
      [unfold on_mouseout|]; nothrow_go.
Qed.

Lemma handler_uncaught ev w :
  uncaught (exec (handler_of ev w) w) = uncaught w.
Proof.
  apply wp_exec.
  eapply (wp_pres _ (fun w' => uncaught w' = uncaught w)); [|done|done].
  destruct ev as [key|k|h|h res|h e|h]; simpl.
  - unfold_handlers. pres_go; done.
  - unfold_handlers. pres_go; done.
  - unfold_handlers. pres_go; done.
  - destruct (runs w !! h) as [r|]; [|apply pres_ret].
    unfold resume. destruct (r_load r), res; unfold_handlers; pres_go; done.
  - unfold_handlers. pres_go; done.
  - unfold_handlers. pres_go; done.
Qed.

(** X14: the only exceptions that ever leave a handler are rejections of
    one of the three fetches: toggling, changing the basemap and the pointer
    listeners never throw, and the non-null assertion on [popupRef] in the
    ["mousemove"] listener never meets a null. *)
Theorem only_fetch_rejections_escape (w : World) :
  reachable w -> Forall fetch_error (uncaught w).
Proof.
  induction 1 as [|w ev Hw IH]; [by apply Forall_nil_2|].
  pose proof (handler_throws ev w (reachable_inv w Hw)) as Ht.
  pose proof (handler_uncaught ev w) as Hu.
  unfold wp in Ht. unfold step, settle, exec in *.
  destruct (handler_of ev w w) as [[a|e] w']; simpl in *; rewrite Hu; [done|].
  apply Forall_app. split; [done|]. apply Forall_cons_2; [|apply Forall_nil_2].
  by apply Ht.
Qed.

Lemma only_fetch_rejections_escape_witness :
  let w := steps [EvLoad 0; EvFetch 0 None; EvToggle communes;
                  EvMouseMove 0 over_both] mounted in
  reachable w /\ uncaught w = [FetchRejected url_departments]
  /\ Forall fetch_error (uncaught w).
Proof.
  assert (H : reachable (steps [EvLoad 0; EvFetch 0 None; EvToggle communes;
                                EvMouseMove 0 over_both] mounted))
    by apply reachable_steps, reach_mounted.
  split; [exact H|]. split; [vm_compute; reflexivity|].
  apply (only_fetch_rejections_escape _ H).
Defined.

(** ** The buttons *)

(** X15: clicking the chip of a layer flips whether it is drawn active and
    leaves the other four buttons as they were. *)
Theorem clicking_a_chip_flips_it (w : World) (k : LayerKey) (b : bool) :
  stored w k = Some b ->
  In (layer_button w k) (buttons w)
  /\ b_className (layer_button w k) = button_class b (layer_colour k)
  /\ b_className (layer_button (step (b_onClick (layer_button w k)) w) k)
     = button_class (negb b) (layer_colour k)
  /\ (forall k', k' <> k ->
        layer_button (step (b_onClick (layer_button w k)) w) k'
        = layer_button w k')
  /\ (forall s, base_button (step (b_onClick (layer_button w k)) w) s
                = base_button w s).
Proof.
  intros Hb. destruct (toggle_flag_effect k w b Hb) as (H1 & H2).
  unfold stored in *. split; [destruct k; simpl; by auto 10|].
  unfold layer_button, base_button. cbn [b_className b_onClick].
  rewrite Hb, H1, (step_base (EvToggle k) w). repeat split; try done.
  intros k' Hne. by rewrite (H2 k' Hne).
Qed.

Lemma clicking_a_chip_flips_it_witness :
  stored ready communes = Some false
  /\ In (layer_button ready communes) (buttons ready)
  /\ b_className (layer_button ready communes)
     = button_class false (layer_colour communes)
  /\ b_className
       (layer_button (step (b_onClick (layer_button ready communes)) ready)
          communes)
     = button_class (negb false) (layer_colour communes)
  /\ (forall k', k' <> communes ->
        layer_button (step (b_onClick (layer_button ready communes)) ready) k'
        = layer_button ready k')
  /\ (forall s,
        base_button (step (b_onClick (layer_button ready communes)) ready) s
        = base_button ready s).
Proof.
  split; [vm_compute; reflexivity|].
  apply (clicking_a_chip_flips_it ready communes false).
  vm_compute. reflexivity.
Defined.

(** X16: after a click on a basemap button, that button is the one drawn
    active and the other is drawn idle, whichever was active before; the
    layer chips are left as they were. *)
Theorem the_clicked_basemap_button_is_the_active_one (w : World)
    (s : StyleKey) :
  In (base_button w s) (buttons w)
  /\ b_className (base_button (step (b_onClick (base_button w s)) w) s)
     = button_class true (base_colour s)
  /\ (forall s', s' <> s ->
        b_className (base_button (step (b_onClick (base_button w s)) w) s')
        = button_class false (base_colour s'))
  /\ (forall k, layer_button (step (b_onClick (base_button w s)) w) k
                = layer_button w k).
Proof.
  split; [destruct s; simpl; by auto 10|].
  unfold layer_button, base_button. cbn [b_className b_onClick].
  rewrite (step_base (EvSetBase s) w).
  rewrite (other_events_visible (EvSetBase s) w) by done.
  split; [by rewrite bool_decide_true|]. split; [|done].
  intros s' Hne. rewrite bool_decide_false; [done|]. by intros ->.
Qed.
